(** * mcp-git-repo-browser: a shallow embedding of [src/index.js]

    The server exposes two tools over a cached clone of a remote
    repository.  This development embeds the three helpers of
    [src/index.js] ([cloneRepo], [getDirectoryTree] and the batch reader
    inside [handleGitReadImportantFiles]) together with the two handlers
    and the tool dispatcher, and states the properties of the
    specification, and further properties of the code, over them.

    Conventions.
    - A JavaScript string is the list of its UTF-16 code units.
    - A promise that rejects / a call that throws is a [Throw] carrying
      [error.message].
    - The file system is a finite tree of nodes; [cloneRepo] threads it
      explicitly and logs the external commands it issues.
    - Node's [path] functions are modelled for POSIX. *)

From Stdlib Require Import String Ascii.
From Stdlib Require Import List NArith Bool Arith Lia.
From Stdlib Require Import Sorting.Sorted Sorting.Permutation.
Import ListNotations.

Set Implicit Arguments.
Set Warnings "-register-all".

(* ================================================================= *)
(** ** JavaScript strings *)

Definition code_unit := N.
Definition jsstring := list code_unit.

(** [lit s] is the JavaScript string written with the ASCII literal [s]. *)
Definition lit (s : string) : jsstring :=
  map N_of_ascii (list_ascii_of_string s).

Definition jsstring_eqb (a b : jsstring) : bool :=
  if list_eq_dec N.eq_dec a b then true else false.

(** [String.prototype.startsWith]. *)
Fixpoint startsWith (s p : jsstring) : bool :=
  match p, s with
  | [], _ => true
  | _ :: _, [] => false
  | c :: p', d :: s' => N.eqb c d && startsWith s' p'
  end.

(** [s.slice(0, n)] for a non-negative [n]. *)
Definition slice0 (n : nat) (s : jsstring) : jsstring := firstn n s.

(** The order used by [Array.prototype.sort] without a comparator on
    strings: lexicographic on code units. *)
Fixpoint js_leb (a b : jsstring) : bool :=
  match a, b with
  | [], _ => true
  | _ :: _, [] => false
  | c :: a', d :: b' =>
      if N.ltb c d then true
      else if N.eqb c d then js_leb a' b' else false
  end.

Fixpoint insert_sorted (x : jsstring) (l : list jsstring) : list jsstring :=
  match l with
  | [] => [x]
  | y :: tl => if js_leb x y then x :: y :: tl else y :: insert_sorted x tl
  end.

(** [entries.sort()]: the order is total and equal strings are identical,
    so the sorted array does not depend on the algorithm. *)
Fixpoint sort (l : list jsstring) : list jsstring :=
  match l with
  | [] => []
  | x :: tl => insert_sorted x (sort tl)
  end.

(* ================================================================= *)
(** ** Errors *)

(** The outcome of an awaited call: a value, or a thrown [Error] of which
    the program only ever reads [message]. *)
Inductive result (A : Type) : Type :=
| Ok (a : A)
| Throw (message : jsstring).
Arguments Ok {A} a.
Arguments Throw {A} message.

(* ================================================================= *)
(** ** [crypto.createHash('sha256').update(s).digest('hex')] *)

(** [update] with a string hashes its UTF-8 encoding; a lone surrogate is
    encoded as U+FFFD. *)
Definition is_high_surrogate (c : N) : bool := (0xD800 <=? c)%N && (c <=? 0xDBFF)%N.
Definition is_low_surrogate (c : N) : bool := (0xDC00 <=? c)%N && (c <=? 0xDFFF)%N.

Definition utf8_of_code_point (c : N) : list N :=
  if (c <? 0x80)%N then [c]
  else if (c <? 0x800)%N then
    [N.lor 0xC0 (N.shiftr c 6); N.lor 0x80 (N.land c 0x3F)]
  else if (c <? 0x10000)%N then
    [N.lor 0xE0 (N.shiftr c 12);
     N.lor 0x80 (N.land (N.shiftr c 6) 0x3F);
     N.lor 0x80 (N.land c 0x3F)]
  else
    [N.lor 0xF0 (N.shiftr c 18);
     N.lor 0x80 (N.land (N.shiftr c 12) 0x3F);
     N.lor 0x80 (N.land (N.shiftr c 6) 0x3F);
     N.lor 0x80 (N.land c 0x3F)].

Fixpoint utf8_encode (s : jsstring) : list N :=
  match s with
  | [] => []
  | c :: rest =>
      if is_high_surrogate c then
        match rest with
        | d :: rest' =>
            if is_low_surrogate d then
              utf8_of_code_point
                (0x10000 + N.shiftl (c - 0xD800) 10 + (d - 0xDC00))%N
                ++ utf8_encode rest'
            else utf8_of_code_point 0xFFFD ++ utf8_encode rest
        | [] => utf8_of_code_point 0xFFFD
        end
      else if is_low_surrogate c then
        utf8_of_code_point 0xFFFD ++ utf8_encode rest
      else utf8_of_code_point c ++ utf8_encode rest
  end.

Module Sha256.

Definition w32 (x : N) : N := N.land x 0xFFFFFFFF.
Definition add32 (x y : N) : N := w32 (x + y).
Definition rotr (n x : N) : N :=
  N.lor (N.shiftr x n) (w32 (N.shiftl x (32 - n))).
Definition not32 (x : N) : N := N.lxor x 0xFFFFFFFF.

Definition Ch (x y z : N) : N := N.lxor (N.land x y) (N.land (not32 x) z).
Definition Maj (x y z : N) : N :=
  N.lxor (N.lxor (N.land x y) (N.land x z)) (N.land y z).
Definition Sigma0 (x : N) : N := N.lxor (N.lxor (rotr 2 x) (rotr 13 x)) (rotr 22 x).
Definition Sigma1 (x : N) : N := N.lxor (N.lxor (rotr 6 x) (rotr 11 x)) (rotr 25 x).
Definition sigma0 (x : N) : N := N.lxor (N.lxor (rotr 7 x) (rotr 18 x)) (N.shiftr x 3).
Definition sigma1 (x : N) : N := N.lxor (N.lxor (rotr 17 x) (rotr 19 x)) (N.shiftr x 10).

(** The constants are defined as in FIPS 180-4: the first 32 bits of the
    fractional parts of the cube roots (for [K]) and of the square roots
    (for [H0]) of the first primes. *)
Definition is_prime (n : nat) : bool :=
  forallb (fun d => negb (Nat.eqb (n mod d) 0)) (seq 2 (n - 2)).

Definition primes : list N :=
  map N.of_nat (filter is_prime (seq 2 310)).

(** The integer cube root, one bit at a time from bit [bits - 1] down. *)
Fixpoint icbrt_bits (bits : nat) (x r : N) : N :=
  match bits with
  | O => r
  | S b =>
      let r' := N.lor r (N.shiftl 1 (N.of_nat b)) in
      icbrt_bits b x (if (r' * r' * r' <=? x)%N then r' else r)
  end.

Definition K : list N :=
  Eval vm_compute in
    map (fun p => w32 (icbrt_bits 40 (N.shiftl p 96) 0)) (firstn 64 primes).

Record state := mkState { ha : N; hb : N; hc : N; hd : N;
                          he : N; hf : N; hg : N; hh : N }.

Definition H0 : state :=
  Eval vm_compute in
    match map (fun p => w32 (N.sqrt (N.shiftl p 64))) (firstn 8 primes) with
    | [a; b; c; d; e; f; g; h] => mkState a b c d e f g h
    | _ => mkState 0 0 0 0 0 0 0 0
    end.

(** Padding: a 1 bit, zeros up to 56 mod 64, the bit length on 8 bytes. *)
Fixpoint be_bytes (n : nat) (x : N) : list N :=
  match n with
  | O => []
  | S n' => N.land (N.shiftr x (8 * N.of_nat n')) 0xFF :: be_bytes n' x
  end.

Definition pad (msg : list N) : list N :=
  let len := length msg in
  let zeros := (64 - (len + 9) mod 64) mod 64 in
  msg ++ [0x80%N] ++ repeat 0%N zeros ++ be_bytes 8 (8 * N.of_nat len).

Fixpoint words (bytes : list N) : list N :=
  match bytes with
  | b0 :: b1 :: b2 :: b3 :: rest =>
      (N.shiftl b0 24 + N.shiftl b1 16 + N.shiftl b2 8 + b3)%N :: words rest
  | _ => []
  end.

Fixpoint chunks (fuel : nat) (ws : list N) : list (list N) :=
  match fuel, ws with
  | S f, _ :: _ => firstn 16 ws :: chunks f (skipn 16 ws)
  | _, _ => []
  end.

(** The message schedule: [w] holds the last 16 words, oldest first. *)
Fixpoint schedule (n : nat) (w : list N) : list N :=
  match n with
  | O => []
  | S n' =>
      let x := add32 (add32 (sigma1 (nth 14 w 0%N)) (nth 9 w 0%N))
                     (add32 (sigma0 (nth 1 w 0%N)) (nth 0 w 0%N)) in
      x :: schedule n' (tl w ++ [x])
  end.

Definition round (s : state) (kw : N * N) : state :=
  let (k, w) := kw in
  let t1 := add32 (add32 (add32 (hh s) (Sigma1 (he s))) (Ch (he s) (hf s) (hg s)))
                  (add32 k w) in
  let t2 := add32 (Sigma0 (ha s)) (Maj (ha s) (hb s) (hc s)) in
  mkState (add32 t1 t2) (ha s) (hb s) (hc s) (add32 (hd s) t1) (he s) (hf s) (hg s).

Definition compress (h : state) (block : list N) : state :=
  let w := block ++ schedule 48 block in
  let s := fold_left round (combine K w) h in
  mkState (add32 (ha h) (ha s)) (add32 (hb h) (hb s))
          (add32 (hc h) (hc s)) (add32 (hd h) (hd s))
          (add32 (he h) (he s)) (add32 (hf h) (hf s))
          (add32 (hg h) (hg s)) (add32 (hh h) (hh s)).

Definition digest (msg : list N) : state :=
  let ws := words (pad msg) in
  fold_left compress (chunks (length ws) ws) H0.

Definition hex_digit (d : N) : N :=
  if (d <? 10)%N then (48 + d)%N else (87 + d)%N.

Fixpoint hex_of (nibbles : nat) (x : N) : jsstring :=
  match nibbles with
  | O => []
  | S n' => hex_digit (N.land (N.shiftr x (4 * N.of_nat n')) 0xF) :: hex_of n' x
  end.

Definition hex (s : state) : jsstring :=
  hex_of 8 (ha s) ++ hex_of 8 (hb s) ++ hex_of 8 (hc s) ++ hex_of 8 (hd s) ++
  hex_of 8 (he s) ++ hex_of 8 (hf s) ++ hex_of 8 (hg s) ++ hex_of 8 (hh s).

End Sha256.

(** [crypto.createHash('sha256').update(s).digest('hex')]. *)
Definition sha256_hex (s : jsstring) : jsstring :=
  Sha256.hex (Sha256.digest (utf8_encode s)).

(* ================================================================= *)
(** ** [path.join] (POSIX) *)

Definition SLASH : code_unit := 47%N.
Definition DOT : jsstring := lit ".".
Definition DOTDOT : jsstring := lit "..".

(** [s.split('/')]. *)
Fixpoint split_sep (s : jsstring) : list jsstring :=
  match s with
  | [] => [[]]
  | c :: rest =>
      if N.eqb c SLASH then [] :: split_sep rest
      else match split_sep rest with
           | seg :: segs => (c :: seg) :: segs
           | [] => [[c]]
           end
  end.

(** [segs.join('/')]. *)
Fixpoint join_sep (segs : list jsstring) : jsstring :=
  match segs with
  | [] => []
  | [seg] => seg
  | seg :: rest => seg ++ SLASH :: join_sep rest
  end.

(** One segment of Node's [normalizeString]: empty and [.] segments are
    dropped, [..] removes the segment before it, and is kept only where
    nothing can be removed and the path is relative.  [stack] holds the
    segments kept so far, the last one first. *)
Definition norm_step (allowAboveRoot : bool) (stack : list jsstring)
    (seg : jsstring) : list jsstring :=
  if jsstring_eqb seg [] || jsstring_eqb seg DOT then stack
  else if jsstring_eqb seg DOTDOT then
    match stack with
    | top :: below =>
        if jsstring_eqb top DOTDOT
        then (if allowAboveRoot then seg :: stack else stack)
        else below
    | [] => if allowAboveRoot then [seg] else []
    end
  else seg :: stack.

Definition norm_segs (allowAboveRoot : bool) (path : jsstring) : list jsstring :=
  rev (fold_left (norm_step allowAboveRoot) (split_sep path) []).

Definition is_absolute (path : jsstring) : bool :=
  match path with c :: _ => N.eqb c SLASH | [] => false end.

Definition trailing_sep (path : jsstring) : bool :=
  match rev path with c :: _ => N.eqb c SLASH | [] => false end.

(** [path.normalize]. *)
Definition path_normalize (path : jsstring) : jsstring :=
  match path with
  | [] => DOT
  | _ =>
      let isAbsolute := is_absolute path in
      let trailingSeparator := trailing_sep path in
      let p := join_sep (norm_segs (negb isAbsolute) path) in
      match p with
      | [] => if isAbsolute then [SLASH]
              else if trailingSeparator then DOT ++ [SLASH] else DOT
      | _ =>
          let p' := if trailingSeparator then p ++ [SLASH] else p in
          if isAbsolute then SLASH :: p' else p'
      end
  end.

(** [path.join(...args)]: the non-empty arguments joined by [/], then
    normalized. *)
Definition path_join (args : list jsstring) : jsstring :=
  match filter (fun a => negb (jsstring_eqb a [])) args with
  | [] => DOT
  | parts => path_normalize (join_sep parts)
  end.

(* ================================================================= *)
(** ** The file system *)

(** An element of the array [git.getRemotes(true)] resolves to:
    [{ name, refs: { fetch, push } }]. *)
Record remote := mkRemote {
  remote_name : jsstring;
  refs_fetch : jsstring;
  refs_push : jsstring
}.

(** What a path names.
    - [File data]: a regular file; [data] is what
      [fs.readFile(path, 'utf8')] gives.
    - [Dir git entries]: a directory that can be listed; [git] is what
      [simpleGit(path).getRemotes(true)] gives there.
    - [Sealed err]: a directory of which [fs.readdir] fails.
    - [Dangling err]: a name of which [fs.stat] fails. *)
Inductive node : Type :=
| File (data : result jsstring)
| Dir (git : result (list remote)) (entries : list (jsstring * node))
| Sealed (err : jsstring)
| Dangling (err : jsstring).

Definition dirent := (jsstring * node)%type.

Fixpoint alist_get (name : jsstring) (es : list dirent) : option node :=
  match es with
  | [] => None
  | (k, c) :: tl => if jsstring_eqb k name then Some c else alist_get name tl
  end.

Fixpoint alist_del (name : jsstring) (es : list dirent) : list dirent :=
  match es with
  | [] => []
  | (k, c) :: tl =>
      if jsstring_eqb k name then alist_del name tl else (k, c) :: alist_del name tl
  end.

(** Replace the first entry called [name], or add one at the end. *)
Fixpoint alist_set (name : jsstring) (c : node) (es : list dirent) : list dirent :=
  match es with
  | [] => [(name, c)]
  | (k, d) :: tl =>
      if jsstring_eqb k name then (k, c) :: tl else (k, d) :: alist_set name c tl
  end.

(** The segments the operating system walks from the root of the model
    (relative paths are taken from there as well). *)
Definition path_segs (p : jsstring) : list jsstring := norm_segs false p.

Fixpoint walk (segs : list jsstring) (n : node) : option node :=
  match segs with
  | [] => Some n
  | s :: rest =>
      match n with
      | Dir _ es =>
          match alist_get s es with
          | Some c => walk rest c
          | None => None
          end
      | _ => None
      end
  end.

Definition NOT_A_REPOSITORY : jsstring :=
  lit "fatal: not a git repository (or any of the parent directories): .git".

Definition empty_dir : node := Dir (Throw NOT_A_REPOSITORY) [].

(** [rm -rf]: the entry named by [segs] disappears from its parent. *)
Fixpoint remove_at (segs : list jsstring) (n : node) : node :=
  match segs with
  | [] => n
  | s :: rest =>
      match n with
      | Dir g es =>
          match rest with
          | [] => Dir g (alist_del s es)
          | _ :: _ =>
              match alist_get s es with
              | Some c => Dir g (alist_set s (remove_at rest c) es)
              | None => n
              end
          end
      | _ => n
      end
  end.

(** [mkdir -p]: [None] when something that is not a directory is in the
    way. *)
Fixpoint mkdirp (segs : list jsstring) (n : node) : option node :=
  match segs with
  | [] =>
      match n with
      | Dir _ _ | Sealed _ => Some n
      | _ => None
      end
  | s :: rest =>
      match n with
      | Dir g es =>
          let child := match alist_get s es with
                       | Some c => c
                       | None => empty_dir
                       end in
          match mkdirp rest child with
          | Some c' => Some (Dir g (alist_set s c' es))
          | None => None
          end
      | _ => None
      end
  end.

(** Replace what [segs] names, when it names something. *)
Fixpoint put_at (segs : list jsstring) (x : node) (n : node) : node :=
  match segs with
  | [] => x
  | s :: rest =>
      match n with
      | Dir g es =>
          match alist_get s es with
          | Some c => Dir g (alist_set s (put_at rest x c) es)
          | None => n
          end
      | _ => n
      end
  end.

(** [fs.pathExists]: [fs.access] succeeds (it follows links, so a
    dangling name does not exist; and a path that ends with the
    separator must name a directory). *)
Definition exists_at (root : node) (p : jsstring) : bool :=
  match walk (path_segs p) root with
  | Some (Dangling _) | None => false
  | Some (File _) => negb (trailing_sep p)
  | Some _ => true
  end.

Definition NOT_A_DIRECTORY : jsstring :=
  lit "Cannot use simple-git on a directory that does not exist".

(** [simpleGit(p).getRemotes(true)]. *)
Definition remotes_at (root : node) (p : jsstring) : result (list remote) :=
  match walk (path_segs p) root with
  | Some (Dir git _) => git
  | Some (Sealed err) => Throw err
  | _ => Throw NOT_A_DIRECTORY
  end.

(* ================================================================= *)
(** ** The world outside the process *)

(** What [git clone url dir] does at [url].  When it succeeds: the
    remotes that [getRemotes(true)] will list in the new working copy,
    and the entries it writes.  git records the URL it was given as the
    fetch URL of [origin], except where it rewrites it (a relative local
    path is stored as an absolute one), and simple-git reads the list
    back by splitting lines at blanks; so the recorded fetch URL is a
    fact of the world, not of the program.  When it fails: the message,
    and whatever it left in [dir]. *)
Inductive fetch_outcome : Type :=
| Fetched (remotes : list remote) (entries : list dirent)
| FetchFailed (message : jsstring) (leftover : list dirent).

(** The three calls of [cloneRepo] whose failure the file system alone
    decides: [fs.remove] at line 35, [fs.ensureDir] at line 40,
    [fs.remove] at line 46. *)
Inductive site : Type := RemoveStale | EnsureDir | RemoveFailedClone.

Record env := mkEnv {
  tmpdir : jsstring;                       (* os.tmpdir() *)
  remote_repo : jsstring -> fetch_outcome; (* the network *)
  fault : site -> option jsstring          (* Some message: the call throws *)
}.

(** The external commands a run issues, in order. *)
Inductive event : Type :=
| EvGetRemotes (dir : jsstring)
| EvRemove (dir : jsstring)
| EvEnsureDir (dir : jsstring)
| EvClone (url dir : jsstring).

(** An [async] function over the file system: its outcome, the file
    system it leaves, and the commands it issued. *)
Definition M (A : Type) : Type := node -> result A * node * list event.

Definition ret {A} (a : A) : M A := fun w => (Ok a, w, []).
Definition throw {A} (message : jsstring) : M A := fun w => (Throw message, w, []).

Definition bind {A B} (m : M A) (k : A -> M B) : M B :=
  fun w =>
    match m w with
    | (Ok a, w1, l1) =>
        match k a w1 with
        | (r, w2, l2) => (r, w2, l1 ++ l2)
        end
    | (Throw e, w1, l1) => (Throw e, w1, l1)
    end.

(** [try { m } catch (error) { handler(error.message) }]. *)
Definition try_catch {A} (m : M A) (handler : jsstring -> M A) : M A :=
  fun w =>
    match m w with
    | (Ok a, w1, l1) => (Ok a, w1, l1)
    | (Throw e, w1, l1) =>
        match handler e w1 with
        | (r, w2, l2) => (r, w2, l1 ++ l2)
        end
    end.

Declare Scope async_scope.
Delimit Scope async_scope with async.
Notation "x <- m ;; k" := (bind m (fun x => k))
  (at level 61, m at next level, right associativity) : async_scope.
Notation "m ;;; k" := (bind m (fun _ => k))
  (at level 61, right associativity) : async_scope.

Definition DESTINATION_NOT_EMPTY (dir : jsstring) : jsstring :=
  lit "fatal: destination path '" ++ dir ++
  lit "' already exists and is not an empty directory.".

Definition ALREADY_EXISTS (dir : jsstring) : jsstring :=
  lit "EEXIST: file already exists, mkdir '" ++ dir ++ lit "'".

Section Primitives.
Variable e : env.

Definition pathExists (p : jsstring) : M bool :=
  fun w => (Ok (exists_at w p), w, []).

Definition getRemotes (dir : jsstring) : M (list remote) :=
  fun w => (remotes_at w dir, w, [EvGetRemotes dir]).

Definition fs_remove (s : site) (dir : jsstring) : M unit :=
  fun w =>
    match fault e s with
    | Some message => (Throw message, w, [EvRemove dir])
    | None => (Ok tt, remove_at (path_segs dir) w, [EvRemove dir])
    end.

Definition fs_ensureDir (dir : jsstring) : M unit :=
  fun w =>
    match fault e EnsureDir with
    | Some message => (Throw message, w, [EvEnsureDir dir])
    | None =>
        match mkdirp (path_segs dir) w with
        | Some w' => (Ok tt, w', [EvEnsureDir dir])
        | None => (Throw (ALREADY_EXISTS dir), w, [EvEnsureDir dir])
        end
    end.

(** [simpleGit().clone(url, dir)].  git refuses a destination that
    exists and is not an empty directory before it contacts the remote;
    a clone that succeeds leaves a working copy with the remotes and
    the entries of its outcome. *)
Definition git_clone (url dir : jsstring) : M unit :=
  fun w =>
    match walk (path_segs dir) w with
    | Some (Dir _ []) =>
        match remote_repo e url with
        | Fetched remotes entries =>
            (Ok tt,
             put_at (path_segs dir) (Dir (Ok remotes) entries) w,
             [EvClone url dir])
        | FetchFailed message leftover =>
            (Throw message,
             put_at (path_segs dir) (Dir (Throw NOT_A_REPOSITORY) leftover) w,
             [EvClone url dir])
        end
    | _ => (Throw (DESTINATION_NOT_EMPTY dir), w, [EvClone url dir])
    end.

End Primitives.

(* ================================================================= *)
(** ** [cloneRepo] *)

Local Open Scope async_scope.

(** Lines 19-23. *)
Definition repoHash (repoUrl : jsstring) : jsstring :=
  slice0 12 (sha256_hex repoUrl).

Definition tempDir (e : env) (repoUrl : jsstring) : jsstring :=
  path_join [tmpdir e; lit "github_tools_" ++ repoHash repoUrl].

(** [remotes.length > 0 && remotes[0].refs.fetch === repoUrl]. *)
Definition first_remote_is (remotes : list remote) (repoUrl : jsstring) : bool :=
  match remotes with
  | r :: _ => jsstring_eqb (refs_fetch r) repoUrl
  | [] => false
  end.

(** Lines 26-37: [Some dir] is the early [return tempDir]; [None] falls
    through to line 40. *)
Definition reuse (e : env) (repoUrl dir : jsstring) : M (option jsstring) :=
  present <- pathExists dir ;;
  if (present : bool) then
    try_catch
      (remotes <- getRemotes dir ;;
       if first_remote_is remotes repoUrl then ret (Some dir) else ret None)
      (fun _ => fs_remove e RemoveStale dir ;;; ret None)
  else ret None.

Definition cloneRepo (e : env) (repoUrl : jsstring) : M jsstring :=
  let dir := tempDir e repoUrl in
  reused <- reuse e repoUrl dir ;;
  match reused with
  | Some d => ret d
  | None =>
      fs_ensureDir e dir ;;;
      try_catch
        (git_clone e repoUrl dir ;;; ret dir)
        (fun message =>
           fs_remove e RemoveFailedClone dir ;;;
           throw (lit "Failed to clone repository: " ++ message))
  end.

(* ================================================================= *)
(** ** [getDirectoryTree] *)

Definition GIT_PREFIX : jsstring := lit ".git".

(** The four drawing strings of lines 62-63, as code units. *)
Definition LAST_BRANCH : jsstring := [0x2514; 0x2500; 0x2500; 0x20]%N.
Definition MID_BRANCH : jsstring := [0x251C; 0x2500; 0x2500; 0x20]%N.
Definition BLANK_INDENT : jsstring := lit "    ".
Definition PASS_INDENT : jsstring := [0x2502; 0x20; 0x20; 0x20]%N.
Definition NEWLINE : jsstring := [10%N].

Definition ENOENT : jsstring := lit "ENOENT: no such file or directory".
Definition ENOTDIR : jsstring := lit "ENOTDIR: not a directory, scandir".
Definition EISDIR : jsstring := lit "EISDIR: illegal operation on a directory, read".
Definition ENOTDIR_OPEN : jsstring := lit "ENOTDIR: not a directory, open".

(** [(await fs.stat(p)).isDirectory()] for what [p] names. *)
Definition stat_isDirectory (c : node) : result bool :=
  match c with
  | File _ => Ok false
  | Dir _ _ | Sealed _ => Ok true
  | Dangling err => Throw err
  end.

Section TreeLoop.
(** For the entry called [name] of the directory being listed:
    [fs.stat(entryPath)] and the recursive call on [entryPath]. *)
Variable child : jsstring -> option (result bool * (jsstring -> result jsstring)).
Variable prefix : jsstring.
Variable len : nat.  (* entries.length *)

(** The [for] loop of lines 57-72 from index [i] on; [rest] is
    [entries.slice(i)]. *)
Fixpoint tree_loop (i : nat) (rest : list jsstring) (output : jsstring)
    : result jsstring :=
  match rest with
  | [] => Ok output
  | entry :: rest' =>
      if startsWith entry GIT_PREFIX then tree_loop (S i) rest' output
      else
        let isLast := Nat.eqb i (len - 1) in
        let currentPrefix := if isLast then LAST_BRANCH else MID_BRANCH in
        let nextPrefix := if isLast then BLANK_INDENT else PASS_INDENT in
        let output := output ++ prefix ++ currentPrefix ++ entry ++ NEWLINE in
        match child entry with
        | None => Throw ENOENT
        | Some (Throw err, _) => Throw err
        | Some (Ok false, _) => tree_loop (S i) rest' output
        | Some (Ok true, recurse) =>
            match recurse (prefix ++ nextPrefix) with
            | Throw err => Throw err
            | Ok sub => tree_loop (S i) rest' (output ++ sub)
            end
        end
  end.
End TreeLoop.

(** [getDirectoryTree(dirPath, prefix)] where [dirPath] names [n]; the
    entry [path.join(dirPath, entry)] is the child called [entry]. *)
Fixpoint getDirectoryTree (n : node) (prefix : jsstring) : result jsstring :=
  match n with
  | Dir _ es =>
      let entries := sort (map fst es) in
      let child :=
        (fix find (l : list dirent) (name : jsstring) :=
           match l with
           | [] => None
           | (k, c) :: tl =>
               if jsstring_eqb k name
               then Some (stat_isDirectory c, getDirectoryTree c)
               else find tl name
           end) es in
      tree_loop child prefix (length entries) 0 entries []
  | File _ => Throw ENOTDIR
  | Sealed err => Throw err
  | Dangling err => Throw err
  end.

Definition getDirectoryTree_at (dirPath : jsstring) : M jsstring :=
  fun w =>
    (match walk (path_segs dirPath) w with
     | Some n => getDirectoryTree n []
     | None => Throw ENOENT
     end, w, []).

(* ================================================================= *)
(** ** Objects with string values, and [JSON.stringify] *)

(** The own properties of an object created by [{}] whose values are
    strings, in the order of their creation. *)
Definition object := list (jsstring * jsstring).

Definition PROTO : jsstring := lit "__proto__".

Fixpoint define_own (k v : jsstring) (o : object) : object :=
  match o with
  | [] => [(k, v)]
  | (k', v') :: tl =>
      if jsstring_eqb k' k then (k', v) :: tl else (k', v') :: define_own k v tl
  end.

(** [o[k] = v] for a string [v].  The key [__proto__] reaches the setter
    inherited from [Object.prototype], which ignores a value that is
    neither an object nor null; every other key is an own data
    property, created or overwritten. *)
Definition obj_set (o : object) (k v : jsstring) : object :=
  if jsstring_eqb k PROTO then o else define_own k v o.

Fixpoint obj_get (o : object) (k : jsstring) : option jsstring :=
  match o with
  | [] => None
  | (k', v) :: tl => if jsstring_eqb k' k then Some v else obj_get tl k
  end.

Definition is_digit (c : code_unit) : bool := (48 <=? c)%N && (c <=? 57)%N.

(** The array index a property key denotes, when it is the canonical
    decimal form of an integer below 2^32 - 1. *)
Definition array_index (k : jsstring) : option N :=
  match k with
  | [] => None
  | c :: rest =>
      if forallb is_digit k && (negb (N.eqb c 48) || jsstring_eqb rest []) then
        let v := fold_left (fun acc d => (acc * 10 + (d - 48))%N) k 0%N in
        if (v <? 4294967295)%N then Some v else None
      else None
  end.

Fixpoint insert_index (x : N * (jsstring * jsstring))
    (l : list (N * (jsstring * jsstring))) : list (N * (jsstring * jsstring)) :=
  match l with
  | [] => [x]
  | y :: tl => if (fst x <=? fst y)%N then x :: y :: tl else y :: insert_index x tl
  end.

(** Property enumeration order: array indices in ascending order, then
    the other keys in creation order. *)
Definition own_properties (o : object) : list (jsstring * jsstring) :=
  let indexed :=
    flat_map (fun kv => match array_index (fst kv) with
                        | Some i => [(i, kv)]
                        | None => []
                        end) o in
  map snd (fold_right insert_index [] indexed) ++
  filter (fun kv => match array_index (fst kv) with
                    | Some _ => false
                    | None => true
                    end) o.

Definition hex4 (c : N) : jsstring := Sha256.hex_of 4 c.

(** [QuoteJSONString] without the enclosing quotes; the backslash is
    code unit 92. *)
Definition UESC : jsstring := [92; 117]%N.

Fixpoint json_escape (s : jsstring) : jsstring :=
  match s with
  | [] => []
  | c :: rest =>
      if N.eqb c 8 then [92; 98]%N ++ json_escape rest
      else if N.eqb c 9 then [92; 116]%N ++ json_escape rest
      else if N.eqb c 10 then [92; 110]%N ++ json_escape rest
      else if N.eqb c 12 then [92; 102]%N ++ json_escape rest
      else if N.eqb c 13 then [92; 114]%N ++ json_escape rest
      else if N.eqb c 34 then [92; 34]%N ++ json_escape rest
      else if N.eqb c 92 then [92; 92]%N ++ json_escape rest
      else if (c <? 32)%N then UESC ++ hex4 c ++ json_escape rest
      else if is_high_surrogate c then
        match rest with
        | d :: rest' =>
            if is_low_surrogate d then c :: d :: json_escape rest'
            else UESC ++ hex4 c ++ json_escape rest
        | [] => UESC ++ hex4 c
        end
      else if is_low_surrogate c then UESC ++ hex4 c ++ json_escape rest
      else c :: json_escape rest
  end.

Definition json_quote (s : jsstring) : jsstring :=
  34%N :: json_escape s ++ [34%N].

Fixpoint join_with (sep : jsstring) (parts : list jsstring) : jsstring :=
  match parts with
  | [] => []
  | [x] => x
  | x :: tl => x ++ sep ++ join_with sep tl
  end.

(** [JSON.stringify(o, null, 2)]. *)
Definition JSON_stringify (o : object) : jsstring :=
  match own_properties o with
  | [] => lit "{}"
  | props =>
      [123; 10]%N ++
      join_with [44; 10]%N
        (map (fun kv => lit "  " ++ json_quote (fst kv) ++ lit ": " ++ json_quote (snd kv))
             props) ++
      [10; 125]%N
  end.

(* ================================================================= *)
(** ** The two handlers *)

(** [fs.readFile(p, 'utf8')]. *)
Definition readFile_at (root : node) (p : jsstring) : result jsstring :=
  match walk (path_segs p) root with
  | Some (File data) => if trailing_sep p then Throw ENOTDIR_OPEN else data
  | Some (Dir _ _) | Some (Sealed _) => Throw EISDIR
  | Some (Dangling err) => Throw err
  | None => Throw ENOENT
  end.

Definition FILE_NOT_FOUND : jsstring := lit "Error: File not found".
Definition ERROR_READING : jsstring := lit "Error reading file: ".

(** The body of the [for] loop of lines 185-196. *)
Definition read_one (w : node) (repoPath : jsstring) (results : object)
    (filePath : jsstring) : object :=
  let fullPath := path_join [repoPath; filePath] in
  let attempt :=
    if exists_at w fullPath
    then match readFile_at w fullPath with
         | Ok content => Ok (obj_set results filePath content)
         | Throw message => Throw message
         end
    else Ok (obj_set results filePath FILE_NOT_FOUND) in
  match attempt with
  | Ok results' => results'
  | Throw message => obj_set results filePath (ERROR_READING ++ message)
  end.

(** Lines 183-196: [results] after the loop.  Reading does not change
    the file system. *)
Definition readAll (w : node) (repoPath : jsstring) (file_paths : list jsstring)
    : object :=
  fold_left (read_one w repoPath) file_paths [].

(** The value a handler resolves to: [content[0].text], and [isError]
    ([false] where the property is absent). *)
Record response := mkResponse { text : jsstring; isError : bool }.

Definition handleGitDirectoryStructure (e : env) (repo_url : jsstring) : M response :=
  try_catch
    (repoPath <- cloneRepo e repo_url ;;
     tree <- getDirectoryTree_at repoPath ;;
     ret (mkResponse tree false))
    (fun message => ret (mkResponse (lit "Error: " ++ message) true)).

Definition handleGitReadImportantFiles (e : env) (repo_url : jsstring)
    (file_paths : list jsstring) : M response :=
  try_catch
    (repoPath <- cloneRepo e repo_url ;;
     results <- (fun w => (Ok (readAll w repoPath file_paths), w, [])) ;;
     ret (mkResponse (JSON_stringify results) false))
    (fun message =>
       ret (mkResponse
              (JSON_stringify
                 [(lit "error", lit "Failed to process repository: " ++ message)])
              true)).

(* ================================================================= *)
(** ** Vocabulary of the specification *)

(** An entry is listed unless its name begins with the metadata prefix. *)
Definition visible (name : jsstring) : bool := negb (startsWith name GIT_PREFIX).

Definition js_le (a b : jsstring) : Prop := js_leb a b = true.

(** Following the specification of the tree renderer: the entries of a
    directory in lexicographic order, metadata entries left out, each
    followed by the listing of its own directory (depth first).  An
    entry is given by the names leading to it from the rendered
    directory. *)
Fixpoint listed (n : node) : list (list jsstring) :=
  match n with
  | Dir _ es =>
      let below :=
        (fix find (l : list dirent) (name : jsstring) :=
           match l with
           | [] => []
           | (k, c) :: tl =>
               if jsstring_eqb k name then listed c else find tl name
           end) es in
      flat_map (fun name => [name] :: map (cons name) (below name))
               (filter visible (sort (map fst es)))
  | _ => []
  end.

(** One line of a rendering: for each listed ancestor whether it was
    drawn with the terminal connector, whether the entry itself is, and
    the entry. *)
Record row := mkRow {
  ancestors_last : list bool;
  own_last : bool;
  row_path : list jsstring
}.

Definition indent_of (is_last : bool) : jsstring :=
  if is_last then BLANK_INDENT else PASS_INDENT.

Definition connector_of (is_last : bool) : jsstring :=
  if is_last then LAST_BRANCH else MID_BRANCH.

Definition row_text (prefix : jsstring) (r : row) : jsstring :=
  prefix ++ concat (map indent_of (ancestors_last r)) ++
  connector_of (own_last r) ++ last (row_path r) [] ++ NEWLINE.

(** A directory none of whose listed descendants makes [fs.readdir] or
    [fs.stat] fail. *)
Fixpoint readable (n : node) : bool :=
  match n with
  | File _ => true
  | Dir _ es =>
      (fix all (l : list dirent) : bool :=
         match l with
         | [] => true
         | (k, c) :: tl => (negb (visible k) || readable c) && all tl
         end) es
  | Sealed _ | Dangling _ => false
  end.

(** The number of [git clone] commands in a log. *)
Definition is_clone (ev : event) : bool :=
  match ev with EvClone _ _ => true | _ => false end.

Definition fetches (log : list event) : nat := length (filter is_clone log).

Definition is_hex_digit (c : code_unit) : bool :=
  is_digit c || ((97 <=? c)%N && (c <=? 102)%N).

(** [q] is [root] itself or lies below it. *)
Definition beneath (root q : jsstring) : Prop :=
  exists rest, q = root ++ rest /\ (rest = [] \/ exists r, rest = SLASH :: r).

(** The number of properties of [o] called [k]. *)
Definition entries_for (o : object) (k : jsstring) : nat :=
  length (filter (fun kv => jsstring_eqb (fst kv) k) o).

(* ================================================================= *)
(** ** Auxiliary definitions for the statements *)

(** The inner [find] of [getDirectoryTree], on its own. *)
Definition child_of (es : list dirent) (name : jsstring)
    : option (result bool * (jsstring -> result jsstring)) :=
  match alist_get name es with
  | Some c => Some (stat_isDirectory c, getDirectoryTree c)
  | None => None
  end.

(** The inner [find] of [listed], on its own. *)
Definition below_of (es : list dirent) (name : jsstring) : list (list jsstring) :=
  match alist_get name es with
  | Some c => listed c
  | None => []
  end.

Definition row_wf (r : row) : Prop :=
  length (row_path r) = S (length (ancestors_last r)).

Definition under (is_last : bool) (name : jsstring) (r : row) : row :=
  mkRow (is_last :: ancestors_last r) (own_last r) (name :: row_path r).

Definition renders_as (n : node) : Prop :=
  forall prefix out,
    getDirectoryTree n prefix = Ok out ->
    exists rows,
      out = concat (map (row_text prefix) rows) /\
      map row_path rows = listed n /\
      Forall row_wf rows.

Definition is_directory (n : node) : Prop :=
  match n with Dir _ _ => True | _ => False end.

Definition sample_tree : node :=
  Dir (Throw NOT_A_REPOSITORY)
    [(lit "src", Dir (Throw NOT_A_REPOSITORY)
                   [(lit "b.js", File (Ok (lit "2")));
                    (lit ".gitkeep", File (Ok []));
                    (lit "a.js", File (Ok (lit "1")))]);
     (lit ".git", Sealed (lit "EACCES: permission denied, scandir"));
     (lit "README.md", File (Ok (lit "hello")))].

Definition sample_tree_text : jsstring :=
  MID_BRANCH ++ lit "README.md" ++ NEWLINE ++
  LAST_BRANCH ++ lit "src" ++ NEWLINE ++
  BLANK_INDENT ++ MID_BRANCH ++ lit "a.js" ++ NEWLINE ++
  BLANK_INDENT ++ LAST_BRANCH ++ lit "b.js" ++ NEWLINE.

(** A path segment that [normalizeString] keeps as it is. *)
Definition plain (seg : jsstring) : Prop :=
  seg <> [] /\ seg <> DOT /\ seg <> DOTDOT.

(** The name of the cache directory of a repository (line 23). *)
Definition cache_name (repoUrl : jsstring) : jsstring :=
  lit "github_tools_" ++ repoHash repoUrl.

(** What lines 186-195 store for [filePath]. *)
Definition file_result (w : node) (repoPath filePath : jsstring) : jsstring :=
  let fullPath := path_join [repoPath; filePath] in
  if exists_at w fullPath then
    match readFile_at w fullPath with
    | Ok content => content
    | Throw cause => ERROR_READING ++ cause
    end
  else FILE_NOT_FOUND.


(** A code unit that [QuoteJSONString] copies as it is. *)
Definition json_plain (c : code_unit) : bool :=
  (32 <=? c)%N && negb (N.eqb c 34) && negb (N.eqb c 92) &&
  negb (is_high_surrogate c) && negb (is_low_surrogate c).

Definition QUOTE : jsstring := [34%N].

(** One property of an object as [JSON.stringify(o, null, 2)] prints it. *)
Definition json_line (kv : jsstring * jsstring) : jsstring :=
  lit "  " ++ QUOTE ++ json_escape (fst kv) ++ QUOTE ++ lit ": " ++
  QUOTE ++ json_escape (snd kv) ++ QUOTE.

(** The text of the object [{ error: ... }] of line 209, for an escaped
    message. *)
Definition error_envelope (escaped : jsstring) : jsstring :=
  [123; 10]%N ++ lit "  " ++ QUOTE ++ lit "error" ++ QUOTE ++ lit ": " ++
  QUOTE ++ lit "Failed to process repository: " ++ escaped ++ QUOTE ++
  [10; 125]%N.

(** An environment in which every clone succeeds and git records the
    URL as it was given. *)
Definition sample_env : env :=
  mkEnv (lit "/tmp")
        (fun url => Fetched [mkRemote (lit "origin") url url]
                            [(lit ".git", Dir (Throw NOT_A_REPOSITORY) []);
                             (lit "a.txt", File (Ok (lit "hello")))])
        (fun _ => None).

Definition sample_url : jsstring :=
  lit "https://github.com/razorback16/mcp-git-repo-browser".

Definition sample_dir : jsstring := lit "/tmp/github_tools_9620bdb55df1".

(** The keys of the own properties of an object. *)
Definition keys (o : object) : list jsstring := map fst o.

Definition sample_world : node :=
  Dir (Throw NOT_A_REPOSITORY)
    [(lit "tmp",
      Dir (Throw NOT_A_REPOSITORY)
        [(lit "github_tools_9620bdb55df1",
          Dir (Ok [mkRemote (lit "origin") sample_url sample_url])
            [(lit ".git", Dir (Throw NOT_A_REPOSITORY) []);
             (lit "a.txt", File (Ok (lit "hello")));
             (lit "locked.txt", File (Throw (lit "EACCES: permission denied, open")));
             (lit "__proto__", File (Ok (lit "x")))])])].

(** A directory as [fs.stat] sees it. *)
Definition dir_like (n : node) : Prop :=
  match n with Dir _ _ | Sealed _ => True | _ => False end.

(** The working copy a successful [git clone] writes. *)
Definition working_copy (remotes : list remote) (entries : list dirent) : node :=
  Dir (Ok remotes) entries.

(** An environment in which every clone succeeds and git, run in
    [/home/user], records a relative local path as an absolute one. *)
Definition relative_path_env : env :=
  mkEnv (lit "/tmp")
        (fun url => Fetched [mkRemote (lit "origin") (lit "/home/user/" ++ url)
                                      (lit "/home/user/" ++ url)]
                            [(lit ".git", Dir (Throw NOT_A_REPOSITORY) []);
                             (lit "a.txt", File (Ok (lit "hello")))])
        (fun _ => None).

Definition relative_url : jsstring := lit "scratch/origin_repo".

(** A cache directory that was repointed to another remote. *)
Definition repointed_world : node :=
  Dir (Throw NOT_A_REPOSITORY)
    [(lit "tmp",
      Dir (Throw NOT_A_REPOSITORY)
        [(lit "github_tools_9620bdb55df1",
          Dir (Ok [mkRemote (lit "origin") (lit "https://example.org/other.git")
                            (lit "https://example.org/other.git")])
            [(lit ".git", Dir (Throw NOT_A_REPOSITORY) []);
             (lit "a.txt", File (Ok (lit "hello")))])])].

(** A file system with [/tmp] and nothing in it. *)
Definition empty_world : node :=
  Dir (Throw NOT_A_REPOSITORY) [(lit "tmp", Dir (Throw NOT_A_REPOSITORY) [])].

Definition unreachable_env : env :=
  mkEnv (lit "/tmp")
        (fun _ => FetchFailed (lit "fatal: unable to access the remote")
                              [(lit ".git", Dir (Throw NOT_A_REPOSITORY) [])])
        (fun _ => None).

(** Lines 40-48 of [cloneRepo]: the part after the cache was found
    unusable. *)
Definition clone_fresh (e : env) (repoUrl dir : jsstring) : M jsstring :=
  (fs_ensureDir e dir ;;;
   try_catch
     (git_clone e repoUrl dir ;;; ret dir)
     (fun message =>
        fs_remove e RemoveFailedClone dir ;;;
        throw (lit "Failed to clone repository: " ++ message)))%async.

(** The outcome of the [catch] block of lines 44-48 when the clone into
    [dir] failed with [message] and left the file system [w]. *)
Definition failed_clone (e : env) (repoUrl dir message : jsstring) (w : node)
    : result jsstring * node * list event :=
  match fault e RemoveFailedClone with
  | Some message' =>
      (Throw message', w, [EvEnsureDir dir; EvClone repoUrl dir; EvRemove dir])
  | None =>
      (Throw (lit "Failed to clone repository: " ++ message),
       remove_at (path_segs dir) w,
       [EvEnsureDir dir; EvClone repoUrl dir; EvRemove dir])
  end.

(* ================================================================= *)
(** ** The dispatcher (lines 101-152) *)

(** A tool as listed by the [ListToolsRequestSchema] handler: its name
    and the [required] properties of its input schema. *)
Record tool := mkTool { tool_name : jsstring; tool_required : list jsstring }.

Definition tools : list tool :=
  [mkTool (lit "git_directory_structure") [lit "repo_url"];
   mkTool (lit "git_read_important_files") [lit "repo_url"; lit "file_paths"]].

(** [request.params] of a tool call whose arguments have the types of
    the input schemas. *)
Record request := mkRequest {
  params_name : jsstring;
  arg_repo_url : jsstring;
  arg_file_paths : list jsstring
}.

Inductive ErrorCode : Type := MethodNotFound.

(** How the promise of the [CallToolRequestSchema] handler settles:
    with a response, with [new McpError(code, message)], or with
    another error. *)
Inductive call_outcome : Type :=
| Resolved (r : response)
| RejectedMcp (code : ErrorCode) (message : jsstring)
| Rejected (message : jsstring).

Definition settle (run : result response * node * list event)
    : call_outcome * node * list event :=
  match run with
  | (Ok r, w, log) => (Resolved r, w, log)
  | (Throw message, w, log) => (Rejected message, w, log)
  end.

(** The [switch] of lines 141-151. *)
Definition callTool (e : env) (req : request) (w : node)
    : call_outcome * node * list event :=
  if jsstring_eqb (params_name req) (lit "git_directory_structure") then
    settle (handleGitDirectoryStructure e (arg_repo_url req) w)
  else if jsstring_eqb (params_name req) (lit "git_read_important_files") then
    settle (handleGitReadImportantFiles e (arg_repo_url req) (arg_file_paths req) w)
  else
    (RejectedMcp MethodNotFound (lit "Unknown tool: " ++ params_name req), w, []).

(* ================================================================= *)
(** ** Further vocabulary *)

(** The directory a command names. *)
Definition event_dir (ev : event) : jsstring :=
  match ev with
  | EvGetRemotes dir | EvRemove dir | EvEnsureDir dir | EvClone _ dir => dir
  end.



(** A path segment as [normalizeString] keeps it: not empty, not [.],
    without separator. *)
Definition kept_segment (seg : jsstring) : Prop :=
  seg <> [] /\ seg <> DOT /\ ~ In SLASH seg.

(** The segments [normalizeString] has kept, the last one first:
    ordinary names above [k] segments [..], the latter only in a
    relative path. *)
Definition canonical_stack (allow : bool) (stack : list jsstring) : Prop :=
  exists tops k,
    stack = tops ++ repeat DOTDOT k /\
    Forall (fun seg => kept_segment seg /\ seg <> DOTDOT) tops /\
    (allow = false -> k = 0).

(** A cache directory that is not a repository (as after an interrupted
    run). *)
Definition corrupt_world : node :=
  Dir (Throw NOT_A_REPOSITORY)
    [(lit "tmp",
      Dir (Throw NOT_A_REPOSITORY)
        [(lit "github_tools_9620bdb55df1",
          Dir (Throw NOT_A_REPOSITORY) [(lit "half", File (Ok []))]);
         (lit "github_tools_000000000000",
          Dir (Ok [mkRemote (lit "origin") (lit "https://example.org/x.git")
                            (lit "https://example.org/x.git")])
            [(lit "kept.txt", File (Ok (lit "kept")))])])].

(** An environment in which every [fs.remove] and [fs.ensureDir]
    fails. *)
Definition readonly_env : env :=
  mkEnv (lit "/tmp")
        (fun _ => FetchFailed (lit "fatal: unable to access the remote") [])
        (fun _ => Some (lit "EROFS: read-only file system")).

(** An environment in which only the cleanup after a failed clone
    fails. *)
Definition stuck_cleanup_env : env :=
  mkEnv (lit "/tmp")
        (fun _ => FetchFailed (lit "fatal: unable to access the remote")
                              [(lit "half", File (Ok []))])
        (fun s => match s with
                  | RemoveFailedClone => Some (lit "EBUSY: resource busy or locked")
                  | _ => None
                  end).

(** What the loop of [getDirectoryTree] appends for one listed entry:
    its line and, for a directory, the rendering of that directory. *)
Definition entry_text (es : list dirent) (prefix : jsstring) (is_last : bool)
    (name : jsstring) : result jsstring :=
  match alist_get name es with
  | None => Throw ENOENT
  | Some c =>
      match stat_isDirectory c with
      | Throw err => Throw err
      | Ok false => Ok (prefix ++ connector_of is_last ++ name ++ NEWLINE)
      | Ok true =>
          match getDirectoryTree c (prefix ++ indent_of is_last) with
          | Ok sub => Ok ((prefix ++ connector_of is_last ++ name ++ NEWLINE) ++ sub)
          | Throw err => Throw err
          end
      end
  end.

(** An entry on which the loop of [getDirectoryTree] throws: [fs.stat]
    fails, or it is a directory whose rendering fails. *)
Definition unrenderable (c : node) : Prop :=
  match stat_isDirectory c with
  | Throw _ => True
  | Ok true => forall prefix, exists err, getDirectoryTree c prefix = Throw err
  | Ok false => False
  end.

(** A working copy with a dangling link two levels down. *)
Definition broken_tree : node :=
  Dir (Throw NOT_A_REPOSITORY)
    [(lit "README.md", File (Ok (lit "hello")));
     (lit "docs",
      Dir (Throw NOT_A_REPOSITORY)
        [(lit "index.md", File (Ok []));
         (lit "latest", Dangling (lit "ENOENT: no such file or directory, stat"))])].

(* ================================================================= *)
(** * Properties *)

(** ** Strings and sorting *)

Lemma jsstring_eqb_eq (a b : jsstring) : jsstring_eqb a b = true <-> a = b.
Proof.
  unfold jsstring_eqb. destruct (list_eq_dec N.eq_dec a b); split; congruence.
Qed.

Lemma jsstring_eqb_refl (a : jsstring) : jsstring_eqb a a = true.
Proof. now apply jsstring_eqb_eq. Qed.

Lemma jsstring_eqb_neq (a b : jsstring) : jsstring_eqb a b = false <-> a <> b.
Proof.
  unfold jsstring_eqb. destruct (list_eq_dec N.eq_dec a b); split; congruence.
Qed.

Lemma js_leb_refl (a : jsstring) : js_leb a a = true.
Proof.
  induction a as [|c a IH]; simpl; auto.
  rewrite N.ltb_irrefl, N.eqb_refl. exact IH.
Qed.

Lemma js_leb_total (a b : jsstring) : js_leb a b = false -> js_leb b a = true.
Proof.
  revert b. induction a as [|c a IH]; intros [|d b]; simpl; try congruence.
  destruct (N.ltb_spec c d); [congruence|].
  destruct (N.eqb_spec c d) as [->|Hne].
  - rewrite N.ltb_irrefl, N.eqb_refl. apply IH.
  - intros _. destruct (N.ltb_spec d c); [reflexivity|lia].
Qed.

Lemma js_leb_trans (a b c : jsstring) :
  js_leb a b = true -> js_leb b c = true -> js_leb a c = true.
Proof.
  revert b c. induction a as [|x a IH]; intros [|y b] [|z c]; simpl; try congruence.
  destruct (N.ltb_spec x y) as [Hxy|Hxy].
  - intros _. destruct (N.ltb_spec y z) as [Hyz|Hyz].
    + intros _. destruct (N.ltb_spec x z); [reflexivity|lia].
    + destruct (N.eqb_spec y z) as [->|]; [|discriminate].
      intros _. destruct (N.ltb_spec x z); [reflexivity|lia].
  - destruct (N.eqb_spec x y) as [->|]; [|discriminate].
    intros Hab. destruct (N.ltb_spec y z) as [Hyz|Hyz]; [reflexivity|].
    destruct (N.eqb_spec y z) as [->|]; [|discriminate].
    apply IH. exact Hab.
Qed.

Lemma js_leb_antisym (a b : jsstring) :
  js_leb a b = true -> js_leb b a = true -> a = b.
Proof.
  revert b. induction a as [|x a IH]; intros [|y b]; simpl; try congruence.
  destruct (N.ltb_spec x y), (N.ltb_spec y x); try lia; try congruence.
  - destruct (N.eqb_spec y x); [lia|congruence].
  - destruct (N.eqb_spec x y); [lia|congruence].
  - destruct (N.eqb_spec x y), (N.eqb_spec y x); try congruence.
    intros; f_equal; auto.
Qed.

Lemma insert_sorted_perm (x : jsstring) (l : list jsstring) :
  Permutation (insert_sorted x l) (x :: l).
Proof.
  induction l as [|y tl IH]; simpl; auto.
  destruct (js_leb x y); auto.
  rewrite IH. apply perm_swap.
Qed.

Lemma sort_perm (l : list jsstring) : Permutation (sort l) l.
Proof.
  induction l as [|x tl IH]; simpl; auto.
  rewrite insert_sorted_perm. now constructor.
Qed.

Lemma insert_sorted_sorted (x : jsstring) (l : list jsstring) :
  StronglySorted js_le l -> StronglySorted js_le (insert_sorted x l).
Proof.
  induction 1 as [|y tl Hs IH Hall]; simpl.
  - repeat constructor.
  - destruct (js_leb x y) eqn:E.
    + constructor; [now constructor|].
      constructor; [exact E|].
      rewrite Forall_forall in *. intros z Hz.
      eapply js_leb_trans; [exact E|]. now apply Hall.
    + constructor; [exact IH|].
      rewrite Forall_forall in *. intros z Hz.
      apply (Permutation_in _ (insert_sorted_perm x tl)) in Hz.
      destruct Hz as [<-|Hz]; [now apply js_leb_total|now apply Hall].
Qed.

Lemma sort_sorted (l : list jsstring) : StronglySorted js_le (sort l).
Proof.
  induction l as [|x tl IH]; simpl; [constructor|].
  now apply insert_sorted_sorted.
Qed.

Lemma sort_In (l : list jsstring) (x : jsstring) : In x (sort l) <-> In x l.
Proof.
  split; apply Permutation_in; [|symmetry]; apply sort_perm.
Qed.

Lemma sort_length (l : list jsstring) : length (sort l) = length l.
Proof. apply Permutation_length, sort_perm. Qed.

(** ** Directory entries *)

Lemma alist_get_In (name : jsstring) (es : list dirent) (c : node) :
  alist_get name es = Some c -> In (name, c) es.
Proof.
  induction es as [|[k d] tl IH]; simpl; [discriminate|].
  destruct (jsstring_eqb k name) eqn:E.
  - apply jsstring_eqb_eq in E. intros [= ->]. left. now subst.
  - intros H. right. auto.
Qed.

Lemma In_alist_get (name : jsstring) (es : list dirent) :
  In name (map fst es) -> exists c, alist_get name es = Some c.
Proof.
  induction es as [|[k d] tl IH]; simpl; [tauto|].
  intros [->|H].
  - rewrite jsstring_eqb_refl. eauto.
  - destruct (jsstring_eqb k name); eauto.
Qed.

(** Induction on a tree of nodes. *)
Lemma node_induction (P : node -> Prop) :
  (forall data, P (File data)) ->
  (forall git es, Forall (fun kv => P (snd kv)) es -> P (Dir git es)) ->
  (forall err, P (Sealed err)) ->
  (forall err, P (Dangling err)) ->
  forall n, P n.
Proof.
  intros HF HD HS HG.
  fix IH 1. intros [data|git es|err|err]; [apply HF| |apply HS|apply HG].
  apply HD. induction es as [|[k c] tl IHl]; constructor; [apply IH|exact IHl].
Qed.

(** ** [getDirectoryTree] *)

Lemma tree_loop_ext child1 child2 prefix len :
  (forall name, child1 name = child2 name) ->
  forall rest i output,
    tree_loop child1 prefix len i rest output =
    tree_loop child2 prefix len i rest output.
Proof.
  intros Hext. induction rest as [|entry rest IH]; intros i output; simpl; auto.
  rewrite Hext.
  destruct (startsWith entry GIT_PREFIX); auto.
  destruct (child2 entry) as [[[[]|] recurse]|]; auto.
  destruct (recurse _); auto.
Qed.

Lemma getDirectoryTree_Dir git es prefix :
  getDirectoryTree (Dir git es) prefix =
  tree_loop (child_of es) prefix (length (sort (map fst es))) 0
            (sort (map fst es)) [].
Proof.
  simpl. apply tree_loop_ext. intros name. unfold child_of.
  induction es as [|[k c] tl IH]; simpl; auto.
  destruct (jsstring_eqb k name); auto.
Qed.

Lemma listed_Dir git es :
  listed (Dir git es) =
  flat_map (fun name => [name] :: map (cons name) (below_of es name))
           (filter visible (sort (map fst es))).
Proof.
  simpl. apply flat_map_ext. intros name. do 2 f_equal. unfold below_of.
  induction es as [|[k c] tl IH]; simpl; auto.
  destruct (jsstring_eqb k name); auto.
Qed.

Lemma visible_false (name : jsstring) :
  startsWith name GIT_PREFIX = true -> visible name = false.
Proof. unfold visible. now intros ->. Qed.

Lemma visible_true (name : jsstring) :
  startsWith name GIT_PREFIX = false -> visible name = true.
Proof. unfold visible. now intros ->. Qed.

(** A listing all of whose entries carry the metadata prefix adds
    nothing to the output, whatever the entries are. *)
Lemma tree_loop_all_skipped child prefix len rest :
  Forall (fun name => startsWith name GIT_PREFIX = true) rest ->
  forall i output, tree_loop child prefix len i rest output = Ok output.
Proof.
  induction 1 as [|entry rest Hentry _ IH]; intros i output; simpl; auto.
  now rewrite Hentry.
Qed.

Lemma row_text_under prefix is_last name r :
  row_wf r ->
  row_text prefix (under is_last name r) =
  row_text (prefix ++ indent_of is_last) r.
Proof.
  unfold row_wf, row_text, under. simpl. intros Hwf.
  destruct (row_path r) as [|seg path]; [discriminate|].
  now rewrite <- !app_assoc.
Qed.

Lemma concat_row_text_under prefix is_last name rows :
  Forall row_wf rows ->
  concat (map (row_text prefix) (map (under is_last name) rows)) =
  concat (map (row_text (prefix ++ indent_of is_last)) rows).
Proof.
  induction 1 as [|r rows Hr _ IH]; simpl; auto.
  now rewrite row_text_under, IH.
Qed.

Lemma listed_not_directory (c : node) :
  stat_isDirectory c = Ok false -> listed c = [].
Proof. destruct c; simpl; congruence. Qed.

Lemma tree_loop_rows es prefix len :
  Forall (fun kv => renders_as (snd kv)) es ->
  forall rest i output out,
    tree_loop (child_of es) prefix len i rest output = Ok out ->
    exists rows,
      out = output ++ concat (map (row_text prefix) rows) /\
      map row_path rows =
        flat_map (fun name => [name] :: map (cons name) (below_of es name))
                 (filter visible rest) /\
      Forall row_wf rows.
Proof.
  intros Hes. induction rest as [|entry rest IH]; intros i output out; simpl.
  - intros [= <-]. exists []. simpl. rewrite app_nil_r. auto.
  - destruct (startsWith entry GIT_PREFIX) eqn:Hskip.
    + rewrite (visible_false _ Hskip). apply IH.
    + rewrite (visible_true _ Hskip). simpl.
      set (isLast := Nat.eqb i (len - 1)).
      unfold child_of, below_of.
      destruct (alist_get entry es) as [c|] eqn:Hget; [|discriminate].
      destruct (stat_isDirectory c) as [[|]|err] eqn:Hstat; [| |discriminate].
      * destruct (getDirectoryTree c _) as [sub|err] eqn:Hsub; [|discriminate].
        intros Hloop. apply IH in Hloop. destruct Hloop as (rows & -> & Hpaths & Hwf).
        apply alist_get_In in Hget.
        rewrite Forall_forall in Hes. specialize (Hes _ Hget _ _ Hsub).
        destruct Hes as (rows_c & -> & Hpaths_c & Hwf_c).
        exists (mkRow [] isLast [entry] :: map (under isLast entry) rows_c ++ rows).
        split; [|split].
        -- cbn [map concat]. rewrite map_app, concat_app, concat_row_text_under by assumption.
           unfold row_text, indent_of, connector_of.
           cbn [ancestors_last own_last row_path map concat last app].
           now rewrite <- !app_assoc.
        -- cbn [map flat_map row_path app]. rewrite map_app, Hpaths, map_map.
           cbn [under row_path snd] in *. now rewrite <- Hpaths_c, map_map.
        -- constructor; [reflexivity|]. apply Forall_app. split; auto.
           rewrite Forall_forall in *. intros r Hr. apply in_map_iff in Hr.
           destruct Hr as (r0 & <- & Hr0). unfold row_wf, under. simpl.
           now rewrite (Hwf_c _ Hr0).
      * intros Hloop. apply IH in Hloop. destruct Hloop as (rows & -> & Hpaths & Hwf).
        exists (mkRow [] isLast [entry] :: rows).
        split; [|split].
        -- unfold row_text, connector_of.
           cbn [ancestors_last own_last row_path map concat last app].
           now rewrite <- !app_assoc.
        -- cbn [map flat_map row_path app].
           rewrite (listed_not_directory _ Hstat). cbn [map app]. now f_equal.
        -- constructor; [reflexivity|assumption].
Qed.

Lemma getDirectoryTree_renders (n : node) : renders_as n.
Proof.
  induction n as [data|git es IH|err|err] using node_induction;
    intros prefix out; try (simpl; discriminate).
  rewrite getDirectoryTree_Dir.
  intros Hloop. apply (tree_loop_rows _ _ IH) in Hloop.
  destruct Hloop as (rows & -> & Hpaths & Hwf).
  exists rows. rewrite listed_Dir. auto.
Qed.

Lemma listed_visible (n : node) :
  Forall (Forall (fun name => startsWith name GIT_PREFIX = false)) (listed n).
Proof.
  induction n as [data|git es IH|err|err] using node_induction;
    try (simpl; constructor).
  rewrite listed_Dir. apply Forall_forall. intros path Hpath.
  apply in_flat_map in Hpath. destruct Hpath as (name & Hname & Hpath).
  apply filter_In in Hname. destruct Hname as [_ Hvis].
  unfold visible in Hvis. apply negb_true_iff in Hvis.
  destruct Hpath as [<-|Hpath]; [now repeat constructor|].
  apply in_map_iff in Hpath. destruct Hpath as (sub & <- & Hsub).
  constructor; [exact Hvis|].
  unfold below_of in Hsub.
  destruct (alist_get name es) as [c|] eqn:Hget; [|contradiction].
  apply alist_get_In in Hget. rewrite Forall_forall in IH.
  specialize (IH _ Hget). simpl in IH. rewrite Forall_forall in IH. now apply IH.
Qed.

Lemma tree_loop_ext_visible child1 child2 prefix len :
  (forall name, startsWith name GIT_PREFIX = false -> child1 name = child2 name) ->
  forall rest i output,
    tree_loop child1 prefix len i rest output =
    tree_loop child2 prefix len i rest output.
Proof.
  intros Hext. induction rest as [|entry rest IH]; intros i output; simpl; auto.
  destruct (startsWith entry GIT_PREFIX) eqn:Hskip; auto.
  rewrite (Hext _ Hskip).
  destruct (child2 entry) as [[[[]|] recurse]|]; auto.
  destruct (recurse _); auto.
Qed.

Lemma alist_get_middle (name k : jsstring) (c c' : node) (es1 es2 : list dirent) :
  k <> name ->
  alist_get name (es1 ++ (k, c) :: es2) = alist_get name (es1 ++ (k, c') :: es2).
Proof.
  intros Hne. induction es1 as [|[k1 c1] tl IH]; simpl.
  - apply jsstring_eqb_neq in Hne. now rewrite Hne.
  - now rewrite IH.
Qed.

(** What a skipped entry is, or holds, has no effect on the rendering. *)
Lemma getDirectoryTree_ignores_skipped git es1 es2 name c c' prefix :
  startsWith name GIT_PREFIX = true ->
  getDirectoryTree (Dir git (es1 ++ (name, c) :: es2)) prefix =
  getDirectoryTree (Dir git (es1 ++ (name, c') :: es2)) prefix.
Proof.
  intros Hskip. rewrite !getDirectoryTree_Dir.
  rewrite !map_app. cbn [map fst].
  apply tree_loop_ext_visible. intros x Hx. unfold child_of.
  rewrite (alist_get_middle (name := x) c c'); [reflexivity|].
  intros ->. congruence.
Qed.

Lemma readable_Dir git es :
  readable (Dir git es) =
  forallb (fun kv => negb (visible (fst kv)) || readable (snd kv)) es.
Proof.
  simpl. induction es as [|[k c] tl IH]; simpl; auto. now rewrite IH.
Qed.

(** A directory whose listed descendants can all be read is rendered. *)
Lemma getDirectoryTree_total (n : node) :
  readable n = true -> is_directory n ->
  forall prefix, exists out, getDirectoryTree n prefix = Ok out.
Proof.
  induction n as [data|git es IH|err|err] using node_induction;
    intros Hread Hdir prefix; try contradiction.
  rewrite getDirectoryTree_Dir. rewrite readable_Dir in Hread.
  rewrite forallb_forall in Hread. rewrite Forall_forall in IH.
  generalize (length (sort (map fst es))) as len.
  generalize 0 as i. generalize (@nil code_unit) as output.
  assert (Hin : forall x, In x (sort (map fst es)) -> In x (map fst es))
    by (intros x; apply sort_In).
  revert Hin. generalize (sort (map fst es)) as rest.
  induction rest as [|entry rest IHrest]; intros Hin output i len; simpl; eauto.
  assert (Hrest : forall x, In x rest -> In x (map fst es))
    by (intros x Hx; apply Hin; now right).
  destruct (startsWith entry GIT_PREFIX) eqn:Hskip; [now apply IHrest|].
  unfold child_of.
  destruct (In_alist_get entry es (Hin entry (or_introl eq_refl))) as [c Hget].
  rewrite Hget. apply alist_get_In in Hget.
  specialize (Hread _ Hget). specialize (IH _ Hget). simpl in Hread, IH.
  rewrite (visible_true _ Hskip) in Hread. simpl in Hread.
  destruct c as [data|git' es'|err|err]; simpl in Hread; try discriminate.
  - simpl. now apply IHrest.
  - cbn [stat_isDirectory].
    destruct (IH Hread I (prefix ++ indent_of (Nat.eqb i (len - 1)))) as [sub Hsub].
    unfold indent_of in Hsub. rewrite Hsub. now apply IHrest.
Qed.

(** The directory of the specification's example: the metadata
    directory and one regular file. *)
Lemma getDirectoryTree_git_and_file git meta data prefix :
  getDirectoryTree (Dir git [(lit ".git", meta); (lit "x.txt", File data)]) prefix =
  Ok (prefix ++ LAST_BRANCH ++ lit "x.txt" ++ NEWLINE).
Proof. rewrite getDirectoryTree_Dir. reflexivity. Qed.

(** C5: a rendering that succeeds lists exactly the entries of [listed]
    (each directory's entries in lexicographic order, entries with the
    metadata prefix left out, a directory's own entries right after it),
    one line per entry; no listed name begins with the metadata prefix;
    what a skipped entry holds has no effect; and rendering the same
    directory again gives the same text. *)
Theorem getDirectoryTree_sorted_filtered_deterministic
    (n : node) (prefix out : jsstring) :
  getDirectoryTree n prefix = Ok out ->
  (exists rows,
     out = concat (map (row_text prefix) rows) /\
     map row_path rows = listed n /\
     Forall row_wf rows) /\
  Forall (Forall (fun name => startsWith name GIT_PREFIX = false)) (listed n) /\
  (forall git es,
     listed (Dir git es) =
       flat_map (fun name => [name] :: map (cons name) (below_of es name))
                (filter visible (sort (map fst es))) /\
     StronglySorted js_le (sort (map fst es)) /\
     Permutation (sort (map fst es)) (map fst es)) /\
  (forall git es1 es2 name c c' p,
     startsWith name GIT_PREFIX = true ->
     getDirectoryTree (Dir git (es1 ++ (name, c) :: es2)) p =
     getDirectoryTree (Dir git (es1 ++ (name, c') :: es2)) p) /\
  (forall out', getDirectoryTree n prefix = Ok out' -> out' = out).
Proof.
  intros Hout. repeat split.
  - now apply getDirectoryTree_renders.
  - apply listed_visible.
  - apply listed_Dir.
  - apply sort_sorted.
  - apply sort_perm.
  - intros. now apply getDirectoryTree_ignores_skipped.
  - intros out' Hout'. congruence.
Qed.

Lemma getDirectoryTree_sorted_filtered_deterministic_witness :
  getDirectoryTree sample_tree [] = Ok sample_tree_text /\
  listed sample_tree =
    [[lit "README.md"]; [lit "src"]; [lit "src"; lit "a.js"]; [lit "src"; lit "b.js"]] /\
  exists rows,
    sample_tree_text = concat (map (row_text []) rows) /\
    map row_path rows = listed sample_tree /\
    Forall row_wf rows.
Proof.
  split; [reflexivity|]. split; [reflexivity|].
  apply (getDirectoryTree_sorted_filtered_deterministic sample_tree [] (out := sample_tree_text)).
  reflexivity.
Defined.

(** C9: a directory whose listing is empty, or whose entries all have
    names beginning with the metadata prefix, is rendered as the empty
    string; the rendering does not fail. *)
Theorem getDirectoryTree_nothing_listed (git : result (list remote))
    (es : list dirent) (prefix : jsstring) :
  Forall (fun kv => startsWith (fst kv) GIT_PREFIX = true) es ->
  getDirectoryTree (Dir git es) prefix = Ok [].
Proof.
  intros Hall. rewrite getDirectoryTree_Dir. apply tree_loop_all_skipped.
  apply Forall_forall. intros name Hname. apply (proj1 (sort_In _ _)) in Hname.
  apply in_map_iff in Hname. destruct Hname as (kv & <- & Hkv).
  rewrite Forall_forall in Hall. now apply Hall.
Qed.

Lemma getDirectoryTree_nothing_listed_witness :
  getDirectoryTree (Dir (Throw NOT_A_REPOSITORY) []) (lit "  ") = Ok [] /\
  getDirectoryTree
    (Dir (Ok [])
       [(lit ".gitignore", File (Ok (lit "node_modules")));
        (lit ".git", Dangling ENOENT);
        (lit ".github", Sealed ENOENT)]) [] = Ok [].
Proof.
  split; apply getDirectoryTree_nothing_listed; repeat constructor.
Defined.

(** C6, where it fails: in a directory whose last name in sorted order
    carries the metadata prefix, the last listed entry is drawn with the
    mid-branch connector. *)
Theorem getDirectoryTree_last_listed_mid_branch
    (git : result (list remote)) (env_file ignore_file : node) (prefix : jsstring) :
  stat_isDirectory env_file = Ok false ->
  getDirectoryTree
    (Dir git [(lit ".env", env_file); (lit ".gitignore", ignore_file)]) prefix =
  Ok (prefix ++ MID_BRANCH ++ lit ".env" ++ NEWLINE).
Proof.
  intros Hstat. rewrite getDirectoryTree_Dir.
  cbv [map fst sort insert_sorted]. 
  change (js_leb (lit ".env") (lit ".gitignore")) with true. cbv iota.
  unfold tree_loop, child_of.
  change (startsWith (lit ".env") GIT_PREFIX) with false.
  change (startsWith (lit ".gitignore") GIT_PREFIX) with true.
  cbv iota. cbn [alist_get length Nat.sub Nat.eqb].
  change (jsstring_eqb (lit ".env") (lit ".env")) with true. cbv iota.
  rewrite Hstat. reflexivity.
Qed.

Lemma getDirectoryTree_last_listed_mid_branch_witness :
  getDirectoryTree
    (Dir (Throw NOT_A_REPOSITORY)
       [(lit ".env", File (Ok (lit "KEY=1"))); (lit ".gitignore", File (Ok (lit ".env")))])
    [] = Ok (MID_BRANCH ++ lit ".env" ++ NEWLINE).
Proof.
  apply (getDirectoryTree_last_listed_mid_branch _ _ (File (Ok (lit ".env"))) []).
  reflexivity.
Defined.

(** ** [path.join] *)

Lemma split_sep_cons (s : jsstring) : exists seg segs, split_sep s = seg :: segs.
Proof.
  induction s as [|c s (seg & segs & IH)]; simpl; eauto.
  destruct (N.eqb c SLASH); eauto. rewrite IH. eauto.
Qed.

Lemma split_sep_app (a b : jsstring) :
  split_sep (a ++ SLASH :: b) = split_sep a ++ split_sep b.
Proof.
  induction a as [|c a IH]; simpl.
  - reflexivity.
  - destruct (N.eqb c SLASH); rewrite IH; [reflexivity|].
    destruct (split_sep_cons a) as (seg & segs & ->). reflexivity.
Qed.

Lemma split_sep_no_slash (s : jsstring) : ~ In SLASH s -> split_sep s = [s].
Proof.
  induction s as [|c s IH]; simpl; intros Hno; [reflexivity|].
  destruct (N.eqb_spec c SLASH) as [->|_]; [tauto|].
  rewrite IH by tauto. reflexivity.
Qed.

Lemma plain_step (allow : bool) (stack : list jsstring) (seg : jsstring) :
  plain seg -> norm_step allow stack seg = seg :: stack.
Proof.
  intros (H0 & H1 & H2). unfold norm_step.
  apply jsstring_eqb_neq in H0, H1, H2. now rewrite H0, H1, H2.
Qed.

(** Segments other than [..] only ever add to what is kept. *)
Lemma fold_norm_step_no_dotdot (allow : bool) (segs : list jsstring) :
  ~ In DOTDOT segs ->
  forall stack, exists added,
    fold_left (norm_step allow) segs stack = added ++ stack.
Proof.
  induction segs as [|seg segs IH]; intros Hno stack; simpl.
  - now exists [].
  - simpl in Hno. destruct (IH (fun H => Hno (or_intror H)) (norm_step allow stack seg))
      as [added ->].
    unfold norm_step.
    destruct (jsstring_eqb seg [] || jsstring_eqb seg DOT); [now exists added|].
    destruct (jsstring_eqb seg DOTDOT) eqn:E.
    + apply jsstring_eqb_eq in E. subst. tauto.
    + exists (added ++ [seg]). now rewrite <- app_assoc.
Qed.

Lemma join_sep_app (l1 l2 : list jsstring) :
  l1 <> [] -> l2 <> [] ->
  join_sep (l1 ++ l2) = join_sep l1 ++ SLASH :: join_sep l2.
Proof.
  intros H1 H2. induction l1 as [|x [|y l1] IH]; [congruence| |].
  - destruct l2; [congruence|]. reflexivity.
  - change (join_sep ((x :: y :: l1) ++ l2)) with (x ++ SLASH :: join_sep ((y :: l1) ++ l2)).
    rewrite IH by discriminate.
    change (join_sep (x :: y :: l1)) with (x ++ SLASH :: join_sep (y :: l1)).
    now rewrite <- app_assoc.
Qed.

Lemma join_sep_nil (l : list jsstring) :
  Forall (fun seg => seg <> []) l -> join_sep l = [] -> l = [].
Proof.
  destruct 1 as [|x [|y l] Hx _]; simpl; auto.
  - intros ->. congruence.
  - intros H. apply app_eq_nil in H. destruct H. discriminate.
Qed.

Lemma norm_step_nonempty (allow : bool) (stack : list jsstring) (seg : jsstring) :
  Forall (fun s => s <> []) stack ->
  Forall (fun s => s <> []) (norm_step allow stack seg).
Proof.
  intros Hst. unfold norm_step.
  destruct (jsstring_eqb seg []) eqn:E0; simpl; auto.
  apply jsstring_eqb_neq in E0.
  destruct (jsstring_eqb seg DOT); auto.
  destruct (jsstring_eqb seg DOTDOT).
  - destruct stack as [|top below]; [destruct allow; auto|].
    inversion Hst; subst.
    destruct (jsstring_eqb top DOTDOT); [destruct allow|]; auto.
  - auto.
Qed.

Lemma fold_norm_step_nonempty (allow : bool) (segs stack : list jsstring) :
  Forall (fun s => s <> []) stack ->
  Forall (fun s => s <> []) (fold_left (norm_step allow) segs stack).
Proof.
  revert stack. induction segs as [|seg segs IH]; intros stack Hst; simpl; auto.
  apply IH. now apply norm_step_nonempty.
Qed.

Lemma norm_segs_nonempty (allow : bool) (p : jsstring) :
  Forall (fun s => s <> []) (norm_segs allow p).
Proof.
  unfold norm_segs. apply Forall_rev. now apply fold_norm_step_nonempty.
Qed.

Lemma trailing_sep_app (a : jsstring) (c : code_unit) (b : jsstring) :
  trailing_sep (a ++ c :: b) = trailing_sep (c :: b).
Proof.
  unfold trailing_sep. rewrite rev_app_distr.
  change (c :: b) with ([c] ++ b). rewrite rev_app_distr.
  destruct (rev b); reflexivity.
Qed.

Lemma trailing_sep_snoc (a : jsstring) (c : code_unit) :
  trailing_sep (a ++ [c]) = N.eqb c SLASH.
Proof. unfold trailing_sep. now rewrite rev_app_distr. Qed.

Lemma is_absolute_app (a b : jsstring) :
  a <> [] -> is_absolute (a ++ b) = is_absolute a.
Proof. destruct a; [congruence|reflexivity]. Qed.

(** The shape of a normalized path that is neither [.] nor ends with
    the separator. *)
Lemma path_normalize_shape (p : jsstring) :
  path_normalize p = p -> trailing_sep p = false -> p <> DOT ->
  p = (if is_absolute p then [SLASH] else []) ++
      join_sep (norm_segs (negb (is_absolute p)) p) /\
  norm_segs (negb (is_absolute p)) p <> [].
Proof.
  intros Hnorm Htrail Hdot. unfold path_normalize in Hnorm.
  destruct p as [|c p]; [now symmetry in Hnorm|].
  rewrite Htrail in Hnorm.
  set (abs := is_absolute (c :: p)) in *.
  set (segs := norm_segs (negb abs) (c :: p)) in *.
  destruct (join_sep segs) as [|d q] eqn:Hjoin.
  - destruct abs; [|now symmetry in Hnorm].
    rewrite <- Hnorm in Htrail. discriminate.
  - split.
    + destruct abs; now rewrite <- Hnorm at 1.
    + intros Hnil. rewrite Hnil in Hjoin. discriminate.
Qed.

Lemma path_join_two (root p : jsstring) :
  root <> [] -> p <> [] ->
  path_join [root; p] = path_normalize (root ++ SLASH :: p).
Proof.
  intros Hr Hp. unfold path_join. simpl.
  apply jsstring_eqb_neq in Hr, Hp. rewrite Hr, Hp. simpl.
  reflexivity.
Qed.

Lemma path_join_root_only (root : jsstring) :
  root <> [] -> path_join [root; []] = path_normalize root.
Proof.
  intros Hr. unfold path_join. simpl.
  apply jsstring_eqb_neq in Hr. rewrite Hr. reflexivity.
Qed.

Lemma path_normalize_cons (c : code_unit) (p : jsstring) :
  path_normalize (c :: p) =
  let q := c :: p in
  let joined := join_sep (norm_segs (negb (is_absolute q)) q) in
  match joined with
  | [] => if is_absolute q then [SLASH]
          else if trailing_sep q then DOT ++ [SLASH] else DOT
  | _ => let p' := if trailing_sep q then joined ++ [SLASH] else joined in
         if is_absolute q then SLASH :: p' else p'
  end.
Proof. reflexivity. Qed.

(** Joining a path without [..] segments to a normalized root only
    appends to the root. *)
Lemma path_join_beneath (root p : jsstring) :
  path_normalize root = root -> trailing_sep root = false -> root <> DOT ->
  ~ In DOTDOT (split_sep p) ->
  beneath root (path_join [root; p]).
Proof.
  intros Hnorm Htrail Hdot Hno.
  destruct (path_normalize_shape Hnorm Htrail Hdot) as [Hshape Hsegs].
  assert (Hroot : root <> []) by (intros ->; now symmetry in Hnorm).
  destruct p as [|d p].
  { rewrite path_join_root_only, Hnorm by assumption.
    exists []. rewrite app_nil_r. auto. }
  rewrite path_join_two by (assumption || discriminate).
  set (abs := is_absolute root) in *.
  set (segs := norm_segs (negb abs) root) in *.
  destruct (@fold_norm_step_no_dotdot (negb abs) _ Hno
              (fold_left (norm_step (negb abs)) (split_sep root) []))
    as [added Hadded].
  assert (Hall : norm_segs (negb abs) (root ++ SLASH :: d :: p) = segs ++ rev added).
  { unfold segs, norm_segs.
    now rewrite split_sep_app, fold_left_app, Hadded, rev_app_distr. }
  assert (Hne : Forall (fun s => s <> []) (segs ++ rev added)).
  { rewrite <- Hall. apply norm_segs_nonempty. }
  assert (Hjoin : exists rest,
             join_sep (segs ++ rev added) = join_sep segs ++ rest /\
             (rest = [] \/ exists r, rest = SLASH :: r)).
  { destruct (rev added) as [|a l] eqn:E.
    - exists []. rewrite !app_nil_r. auto.
    - exists (SLASH :: join_sep (a :: l)).
      rewrite join_sep_app by (assumption || discriminate). eauto. }
  destruct Hjoin as (rest & Hjoin & Hrest).
  assert (Hj0 : join_sep segs <> []).
  { intros Hj. apply Hsegs. apply join_sep_nil; [|exact Hj].
    apply Forall_app in Hne. tauto. }
  assert (Habs : is_absolute (root ++ SLASH :: d :: p) = abs)
    by now apply is_absolute_app.
  assert (Htr : trailing_sep (root ++ SLASH :: d :: p) = trailing_sep (d :: p)).
  { change (SLASH :: d :: p) with ([SLASH] ++ d :: p).
    now rewrite app_assoc, trailing_sep_app. }
  destruct root as [|c root]; [congruence|].
  change ((c :: root) ++ SLASH :: d :: p) with (c :: (root ++ SLASH :: d :: p)) in *.
  rewrite path_normalize_cons. cbv zeta.
  rewrite Habs, Htr, Hall, Hjoin. clear Hall Hjoin Habs Htr.
  remember (join_sep segs ++ rest) as joined eqn:Hxy.
  destruct joined as [|x y].
  { symmetry in Hxy. apply app_eq_nil in Hxy. tauto. }
  rewrite Hxy. clear x y Hxy.
  unfold beneath. rewrite Hshape.
  destruct (trailing_sep (d :: p)).
  - destruct Hrest as [->|[r ->]].
    + exists [SLASH]. rewrite app_nil_r. split; [|eauto].
      destruct abs; simpl; now rewrite <- ?app_assoc.
    + exists (SLASH :: r ++ [SLASH]). split; [|eauto].
      destruct abs; simpl; now rewrite <- ?app_assoc.
  - exists rest. split; [|exact Hrest].
    destruct abs; simpl; now rewrite <- ?app_assoc.
Qed.

(** A leading separator in the second argument changes nothing. *)
Lemma path_join_leading_sep (root p : jsstring) :
  root <> [] -> p <> [] ->
  path_join [root; SLASH :: p] = path_join [root; p].
Proof.
  intros Hr Hp. rewrite !path_join_two by (assumption || discriminate).
  destruct root as [|c root]; [congruence|].
  destruct p as [|d p]; [congruence|].
  change ((c :: root) ++ SLASH :: SLASH :: d :: p)
    with (c :: (root ++ SLASH :: SLASH :: d :: p)).
  change ((c :: root) ++ SLASH :: d :: p) with (c :: (root ++ SLASH :: d :: p)).
  rewrite !path_normalize_cons. cbv zeta.
  change (c :: (root ++ SLASH :: SLASH :: d :: p))
    with ((c :: root) ++ SLASH :: SLASH :: d :: p).
  change (c :: (root ++ SLASH :: d :: p)) with ((c :: root) ++ SLASH :: d :: p).
  rewrite !is_absolute_app by discriminate.
  assert (Ht : trailing_sep ((c :: root) ++ SLASH :: SLASH :: d :: p) =
               trailing_sep ((c :: root) ++ SLASH :: d :: p)).
  { change (SLASH :: SLASH :: d :: p) with ([SLASH; SLASH] ++ d :: p).
    change (SLASH :: d :: p) with ([SLASH] ++ d :: p).
    now rewrite !app_assoc, !trailing_sep_app. }
  rewrite Ht.
  assert (Hs : forall allow,
             norm_segs allow ((c :: root) ++ SLASH :: SLASH :: d :: p) =
             norm_segs allow ((c :: root) ++ SLASH :: d :: p)).
  { intros allow. unfold norm_segs. rewrite !split_sep_app, !fold_left_app.
    reflexivity. }
  rewrite Hs. reflexivity.
Qed.

Lemma trailing_sep_no_slash (s : jsstring) : ~ In SLASH s -> trailing_sep s = false.
Proof.
  intros Hno. unfold trailing_sep. destruct (rev s) as [|c r] eqn:E; [reflexivity|].
  destruct (N.eqb_spec c SLASH) as [->|]; [|reflexivity].
  exfalso. apply Hno. apply in_rev. rewrite E. now left.
Qed.

Lemma trailing_sep_inv (s : jsstring) :
  trailing_sep s = true -> exists s', s = s' ++ [SLASH].
Proof.
  unfold trailing_sep. intros H. destruct (rev s) as [|c r] eqn:E; [discriminate|].
  apply N.eqb_eq in H. subst c. exists (rev r).
  rewrite <- (rev_involutive s), E. reflexivity.
Qed.

Lemma norm_segs_last_plain (allow : bool) (parent name : jsstring) :
  plain name -> ~ In SLASH name ->
  exists kept, norm_segs allow (parent ++ SLASH :: name) = kept ++ [name].
Proof.
  intros Hplain Hno. unfold norm_segs.
  rewrite split_sep_app, fold_left_app, (split_sep_no_slash _ Hno). simpl.
  rewrite plain_step by assumption. simpl. eauto.
Qed.

Lemma norm_segs_plain (allow : bool) (name : jsstring) :
  plain name -> ~ In SLASH name -> norm_segs allow name = [name].
Proof.
  intros Hplain Hno. unfold norm_segs.
  rewrite (split_sep_no_slash _ Hno). simpl. now rewrite plain_step.
Qed.

Lemma join_sep_snoc (l : list jsstring) (x : jsstring) :
  exists before,
    join_sep (l ++ [x]) = before ++ x /\
    (before = [] \/ trailing_sep before = true).
Proof.
  destruct l as [|y l].
  - exists []. auto.
  - exists (join_sep (y :: l) ++ [SLASH]).
    rewrite join_sep_app by discriminate. simpl join_sep at 2.
    rewrite <- app_assoc. split; [reflexivity|].
    right. apply trailing_sep_snoc.
Qed.

(** The last component of a join whose last argument is a plain name is
    that name. *)
Lemma path_join_last_plain (dir name : jsstring) :
  plain name -> ~ In SLASH name ->
  exists parent,
    path_join [dir; name] = parent ++ name /\
    (parent = [] \/ trailing_sep parent = true).
Proof.
  intros Hplain Hno. pose proof Hplain as (Hne & _ & _).
  assert (Hshape : forall q kept,
             q <> [] -> trailing_sep q = false ->
             norm_segs (negb (is_absolute q)) q = kept ++ [name] ->
             exists parent, path_normalize q = parent ++ name /\
                            (parent = [] \/ trailing_sep parent = true)).
  { intros q kept Hq Htr Hsegs. destruct q as [|c q]; [congruence|].
    rewrite path_normalize_cons. cbv zeta. rewrite Htr, Hsegs.
    destruct (join_sep_snoc kept name) as (before & -> & Hbefore).
    destruct (before ++ name) as [|x y] eqn:E.
    { apply app_eq_nil in E. tauto. }
    rewrite <- E. destruct (is_absolute (c :: q)).
    - exists (SLASH :: before). split; [reflexivity|]. right.
      destruct Hbefore as [->|Hb]; [reflexivity|].
      change (SLASH :: before) with ([SLASH] ++ before).
      destruct before as [|b0 b]; [reflexivity|]. now rewrite trailing_sep_app.
    - exists before. auto. }
  destruct dir as [|c dir].
  - unfold path_join. simpl. apply jsstring_eqb_neq in Hne. rewrite Hne. simpl.
    apply jsstring_eqb_neq in Hne.
    apply (Hshape name []); auto using trailing_sep_no_slash.
    now apply norm_segs_plain.
  - rewrite path_join_two by (discriminate || assumption).
    destruct (norm_segs_last_plain (negb (is_absolute ((c :: dir) ++ SLASH :: name)))
                (c :: dir) Hplain Hno) as [kept Hkept].
    apply (Hshape _ kept); auto; [discriminate|].
    destruct name as [|n0 name]; [congruence|].
    change (SLASH :: n0 :: name) with ([SLASH] ++ n0 :: name).
    rewrite app_assoc, trailing_sep_app. now apply trailing_sep_no_slash.
Qed.

(** ** The digest *)

Lemma hex_of_length (n : nat) (x : N) : length (Sha256.hex_of n x) = n.
Proof. induction n; simpl; auto. Qed.

Lemma hex_digit_is_hex (d : N) : (d < 16)%N -> is_hex_digit (Sha256.hex_digit d) = true.
Proof.
  intros Hd. unfold is_hex_digit, is_digit, Sha256.hex_digit.
  destruct (N.ltb_spec d 10).
  - apply orb_true_iff. left. apply andb_true_iff.
    split; apply N.leb_le; lia.
  - apply orb_true_iff. right. apply andb_true_iff.
    split; apply N.leb_le; lia.
Qed.

Lemma hex_of_is_hex (n : nat) (x : N) :
  Forall (fun c => is_hex_digit c = true) (Sha256.hex_of n x).
Proof.
  induction n; simpl; constructor; auto.
  apply hex_digit_is_hex.
  change 15%N with (N.ones 4). rewrite N.land_ones.
  apply N.mod_lt. discriminate.
Qed.

Lemma sha256_hex_length (s : jsstring) : length (sha256_hex s) = 64.
Proof.
  unfold sha256_hex, Sha256.hex.
  generalize (Sha256.digest (utf8_encode s)). intros st.
  rewrite !length_app, !hex_of_length. reflexivity.
Qed.

Lemma sha256_hex_is_hex (s : jsstring) :
  Forall (fun c => is_hex_digit c = true) (sha256_hex s).
Proof.
  unfold sha256_hex, Sha256.hex.
  generalize (Sha256.digest (utf8_encode s)). intros st.
  rewrite !Forall_app. repeat split; apply hex_of_is_hex.
Qed.

Lemma repoHash_length (repoUrl : jsstring) : length (repoHash repoUrl) = 12.
Proof.
  unfold repoHash, slice0. rewrite length_firstn, sha256_hex_length. reflexivity.
Qed.

Lemma In_firstn (A : Type) (n : nat) (l : list A) (x : A) :
  In x (firstn n l) -> In x l.
Proof.
  revert l. induction n as [|n IH]; intros [|y l]; simpl; try tauto.
  intros [->|H]; auto.
Qed.

Lemma repoHash_is_hex (repoUrl : jsstring) :
  Forall (fun c => is_hex_digit c = true) (repoHash repoUrl).
Proof.
  unfold repoHash, slice0. rewrite Forall_forall. intros c Hc.
  apply In_firstn in Hc. revert c Hc. apply Forall_forall, sha256_hex_is_hex.
Qed.

Lemma cache_name_no_slash (repoUrl : jsstring) : ~ In SLASH (cache_name repoUrl).
Proof.
  unfold cache_name. intros H. apply in_app_or in H. destruct H as [H|H].
  - vm_compute in H. intuition discriminate.
  - pose proof (repoHash_is_hex repoUrl) as Hhex. rewrite Forall_forall in Hhex.
    specialize (Hhex _ H). discriminate.
Qed.

Lemma cache_name_plain (repoUrl : jsstring) : plain (cache_name repoUrl).
Proof.
  unfold plain, cache_name. generalize (repoHash repoUrl). intros h.
  vm_compute. repeat split; discriminate.
Qed.

Lemma tempDir_last_component (e : env) (repoUrl : jsstring) :
  exists parent,
    tempDir e repoUrl = parent ++ cache_name repoUrl /\
    (parent = [] \/ trailing_sep parent = true).
Proof.
  apply path_join_last_plain; [apply cache_name_plain|apply cache_name_no_slash].
Qed.

(** The cache directory is never the root of the file system. *)
Lemma tempDir_segs (e : env) (repoUrl : jsstring) :
  exists above, path_segs (tempDir e repoUrl) = above ++ [cache_name repoUrl].
Proof.
  destruct (tempDir_last_component e repoUrl) as (parent & -> & [->|Htr]).
  - exists []. apply norm_segs_plain; [apply cache_name_plain|apply cache_name_no_slash].
  - apply trailing_sep_inv in Htr. destruct Htr as [parent' ->].
    rewrite <- app_assoc. simpl.
    apply norm_segs_last_plain; [apply cache_name_plain|apply cache_name_no_slash].
Qed.

Lemma tempDir_segs_nonempty (e : env) (repoUrl : jsstring) :
  path_segs (tempDir e repoUrl) <> [].
Proof.
  destruct (tempDir_segs e repoUrl) as [above ->]. now destruct above.
Qed.

(** Below a normalized directory, a plain name is appended after one
    separator. *)
Lemma path_join_plain (root name : jsstring) :
  path_normalize root = root -> trailing_sep root = false -> root <> DOT ->
  plain name -> ~ In SLASH name ->
  path_join [root; name] = root ++ SLASH :: name.
Proof.
  intros Hnorm Htrail Hdot Hplain Hno. pose proof Hplain as (Hne & _ & _).
  destruct (path_normalize_shape Hnorm Htrail Hdot) as [Hshape Hsegs].
  assert (Hroot : root <> []) by (intros ->; now symmetry in Hnorm).
  rewrite path_join_two by assumption.
  set (abs := is_absolute root) in *.
  set (segs := norm_segs (negb abs) root) in *.
  assert (Hall : norm_segs (negb abs) (root ++ SLASH :: name) = segs ++ [name]).
  { unfold segs, norm_segs.
    rewrite split_sep_app, fold_left_app, (split_sep_no_slash _ Hno). simpl.
    now rewrite plain_step. }
  assert (Habs : is_absolute (root ++ SLASH :: name) = abs)
    by now apply is_absolute_app.
  assert (Htr : trailing_sep (root ++ SLASH :: name) = false).
  { destruct name as [|n0 name]; [congruence|].
    change (SLASH :: n0 :: name) with ([SLASH] ++ n0 :: name).
    rewrite app_assoc, trailing_sep_app. now apply trailing_sep_no_slash. }
  destruct root as [|c root]; [congruence|].
  change ((c :: root) ++ SLASH :: name) with (c :: (root ++ SLASH :: name)) in *.
  rewrite path_normalize_cons. cbv zeta.
  rewrite Habs, Htr, Hall, join_sep_app by (assumption || discriminate).
  change (join_sep [name]) with name.
  remember (join_sep segs ++ SLASH :: name) as joined eqn:Hxy.
  destruct joined as [|x y].
  { symmetry in Hxy. apply app_eq_nil in Hxy. destruct Hxy. discriminate. }
  rewrite Hxy. clear x y Hxy.
  change (c :: root ++ SLASH :: name) with ((c :: root) ++ SLASH :: name).
  rewrite Hshape at 1. destruct abs; simpl; now rewrite <- ?app_assoc.
Qed.

(** C8: the cache directory of a repository is [os.tmpdir()] joined with
    [github_tools_] and the first 12 characters of the hexadecimal
    SHA-256 digest of the UTF-8 encoding of the URL; these are 12
    hexadecimal digits, the name is the last component of the path, and
    the path depends on nothing but the temporary directory and the URL.
    The digest is the one of the standard: it has the published values
    on the empty message, on [abc], on the message of 56 bytes that
    fills two blocks, and on a string with characters of two, three and
    four bytes and lone surrogates. *)
Theorem tempDir_deterministic (e : env) (repoUrl : jsstring) :
  tempDir e repoUrl =
    path_join [tmpdir e; lit "github_tools_" ++ slice0 12 (sha256_hex repoUrl)] /\
  length (sha256_hex repoUrl) = 64 /\
  length (slice0 12 (sha256_hex repoUrl)) = 12 /\
  Forall (fun c => is_hex_digit c = true) (slice0 12 (sha256_hex repoUrl)) /\
  (exists parent,
     tempDir e repoUrl = parent ++ cache_name repoUrl /\
     (parent = [] \/ trailing_sep parent = true)) /\
  (path_normalize (tmpdir e) = tmpdir e -> trailing_sep (tmpdir e) = false ->
   tmpdir e <> DOT ->
   tempDir e repoUrl = tmpdir e ++ SLASH :: cache_name repoUrl) /\
  (forall e', tmpdir e' = tmpdir e -> tempDir e' repoUrl = tempDir e repoUrl) /\
  sha256_hex [] =
    lit "e3b0c44298fc1c149afbf4c8996fb92427ae41e4649b934ca495991b7852b855" /\
  sha256_hex (lit "abc") =
    lit "ba7816bf8f01cfea414140de5dae2223b00361a396177a9cb410ff61f20015ad" /\
  sha256_hex (lit "abcdbcdecdefdefgefghfghighijhijkijkljklmklmnlmnomnopnopq") =
    lit "248d6a61d20638b8e5c026930c3e6039a33ce45964ff2167f6ecedd419db06c1" /\
  sha256_hex [0x41; 0xE9; 0x20AC; 0xD83D; 0xDE00; 0xD800; 0x42; 0xDC00]%N =
    lit "b41b0280d2db76c45d6deeab518f85c5122772a8ef70c28db1d600203bf1c87f" /\
  sha256_hex (lit "https://github.com/torvalds/linux.git") =
    lit "24dd642f2d9bf0836d97895fee42612860da1aebdfa41a58b7a7aa4dde7be1bc".
Proof.
  split; [reflexivity|].
  split; [apply sha256_hex_length|].
  split; [apply repoHash_length|].
  split; [apply repoHash_is_hex|].
  split; [apply tempDir_last_component|].
  split.
  { intros Hnorm Htrail Hdot. apply path_join_plain; auto.
    - apply cache_name_plain.
    - apply cache_name_no_slash. }
  split.
  { intros e' He'. unfold tempDir. now rewrite He'. }
  split; [vm_compute; reflexivity|].
  split; [vm_compute; reflexivity|].
  split; [vm_compute; reflexivity|].
  split; vm_compute; reflexivity.
Qed.

Lemma tempDir_deterministic_witness :
  tempDir sample_env sample_url = lit "/tmp/github_tools_9620bdb55df1" /\
  tempDir sample_env (lit "https://a/b") = lit "/tmp/github_tools_4148a87e16a3" /\
  tempDir sample_env sample_url <> tempDir sample_env (lit "https://a/b").
Proof.
  destruct (tempDir_deterministic sample_env sample_url)
    as (_ & _ & _ & _ & _ & Hjoined & _).
  destruct (tempDir_deterministic sample_env (lit "https://a/b"))
    as (_ & _ & _ & _ & _ & Hjoined' & _).
  rewrite Hjoined
    by (vm_compute; first [reflexivity|discriminate]).
  rewrite Hjoined'
    by (vm_compute; first [reflexivity|discriminate]).
  split; [vm_compute; reflexivity|].
  split; [vm_compute; reflexivity|].
  vm_compute. discriminate.
Defined.

(** ** The batch reader *)

Lemma read_one_eq (w : node) (repoPath : jsstring) (results : object)
    (filePath : jsstring) :
  read_one w repoPath results filePath =
  obj_set results filePath (file_result w repoPath filePath).
Proof.
  unfold read_one, file_result.
  destruct (exists_at w _); [|reflexivity].
  destruct (readFile_at w _); reflexivity.
Qed.

(** *** Joining a request to the root *)

Lemma split_sep_segments (p : jsstring) :
  Forall (fun seg => ~ In SLASH seg) (split_sep p).
Proof.
  induction p as [|c p IH]; simpl.
  - repeat constructor. auto.
  - destruct (N.eqb_spec c SLASH) as [->|Hne].
    + constructor; auto.
    + destruct (split_sep p) as [|seg segs]; [repeat constructor; simpl; tauto|].
      inversion IH; subst. constructor; auto. simpl. tauto.
Qed.

Lemma join_sep_trailing (segs : list jsstring) :
  Forall (fun seg => seg <> [] /\ ~ In SLASH seg) segs ->
  trailing_sep (join_sep segs) = false.
Proof.
  intros Hall. induction segs as [|seg segs IH]; [reflexivity|].
  inversion Hall as [|? ? [H0 Hno] Hall']; subst.
  destruct segs as [|seg' segs].
  - simpl. now apply trailing_sep_no_slash.
  - change (join_sep (seg :: seg' :: segs)) with (seg ++ SLASH :: join_sep (seg' :: segs)).
    specialize (IH Hall').
    destruct (join_sep (seg' :: segs)) as [|c rest] eqn:E.
    + exfalso. inversion Hall' as [|? ? [Hs _] _]; subst.
      destruct seg' as [|c' seg']; [congruence|].
      destruct segs; simpl in E; discriminate.
    + change (SLASH :: c :: rest) with ([SLASH] ++ c :: rest).
      now rewrite app_assoc, trailing_sep_app.
Qed.







(** With [..] segments the resolved path can leave the root. *)
Lemma read_path_escapes :
  path_join [sample_dir; lit "/etc/passwd"] =
    lit "/tmp/github_tools_9620bdb55df1/etc/passwd" /\
  path_join [sample_dir; lit "../../etc/passwd"] = lit "/etc/passwd".
Proof. split; vm_compute; reflexivity. Qed.

(** *** Objects *)

Lemma obj_get_define_own (o : object) (k v : jsstring) :
  obj_get (define_own k v o) k = Some v.
Proof.
  induction o as [|[k' v'] tl IH]; simpl.
  - now rewrite jsstring_eqb_refl.
  - destruct (jsstring_eqb k' k) eqn:E; simpl; now rewrite E.
Qed.

Lemma obj_get_define_own_other (o : object) (k v k0 : jsstring) :
  k0 <> k -> obj_get (define_own k v o) k0 = obj_get o k0.
Proof.
  intros Hne. induction o as [|[k' v'] tl IH]; simpl.
  - assert (E : jsstring_eqb k k0 = false) by (apply jsstring_eqb_neq; congruence).
    now rewrite E.
  - destruct (jsstring_eqb k' k) eqn:E; simpl.
    + apply jsstring_eqb_eq in E. subst k'.
      assert (E : jsstring_eqb k k0 = false) by (apply jsstring_eqb_neq; congruence).
      now rewrite E.
    + now rewrite IH.
Qed.

Lemma keys_define_own (o : object) (k v : jsstring) :
  keys (define_own k v o) =
  match obj_get o k with Some _ => keys o | None => keys o ++ [k] end.
Proof.
  unfold keys. induction o as [|[k' v'] tl IH]; simpl; auto.
  destruct (jsstring_eqb k' k) eqn:E; simpl; auto.
  rewrite IH. now destruct (obj_get tl k).
Qed.

Lemma obj_get_In_keys (o : object) (k : jsstring) :
  In k (keys o) <-> obj_get o k <> None.
Proof.
  unfold keys. induction o as [|[k' v'] tl IH]; simpl; [tauto|].
  destruct (jsstring_eqb k' k) eqn:E.
  - apply jsstring_eqb_eq in E. split; [discriminate|auto].
  - apply jsstring_eqb_neq in E. rewrite <- IH. tauto.
Qed.

Lemma NoDup_keys_define_own (o : object) (k v : jsstring) :
  NoDup (keys o) -> NoDup (keys (define_own k v o)).
Proof.
  intros Hnd. rewrite keys_define_own.
  destruct (obj_get o k) eqn:E; auto.
  apply NoDup_app; auto.
  - repeat constructor. auto.
  - intros x Hx [<-|[]]. apply obj_get_In_keys in Hx. congruence.
Qed.

Lemma NoDup_keys_obj_set (o : object) (k v : jsstring) :
  NoDup (keys o) -> NoDup (keys (obj_set o k v)).
Proof.
  unfold obj_set. destruct (jsstring_eqb k PROTO); auto using NoDup_keys_define_own.
Qed.

Lemma entries_for_not_key (o : object) (k : jsstring) :
  ~ In k (keys o) -> entries_for o k = 0.
Proof.
  unfold entries_for, keys. induction o as [|[k' v'] tl IH]; simpl; auto.
  intros Hno. destruct (jsstring_eqb k' k) eqn:E.
  - apply jsstring_eqb_eq in E. tauto.
  - apply IH. tauto.
Qed.

Lemma entries_for_key (o : object) (k : jsstring) :
  NoDup (keys o) -> In k (keys o) -> entries_for o k = 1.
Proof.
  unfold entries_for, keys. induction o as [|[k' v'] tl IH]; simpl; [tauto|].
  intros Hnd Hin. inversion Hnd as [|? ? Hnotin Hnd']; subst.
  destruct (jsstring_eqb k' k) eqn:E.
  - apply jsstring_eqb_eq in E. subst k'. simpl. f_equal.
    now apply entries_for_not_key.
  - apply jsstring_eqb_neq in E. apply IH; auto. tauto.
Qed.

Lemma obj_get_obj_set_proto (o : object) (k v : jsstring) :
  obj_get (obj_set o k v) PROTO = obj_get o PROTO.
Proof.
  unfold obj_set. destruct (jsstring_eqb k PROTO) eqn:E; auto.
  apply jsstring_eqb_neq in E. apply obj_get_define_own_other. congruence.
Qed.

(** *** The loop *)

Lemma read_loop_NoDup (w : node) (repoPath : jsstring) (file_paths : list jsstring) :
  forall results,
    NoDup (keys results) ->
    NoDup (keys (fold_left (read_one w repoPath) file_paths results)).
Proof.
  induction file_paths as [|p tl IH]; intros results Hnd; simpl; auto.
  apply IH. rewrite read_one_eq. now apply NoDup_keys_obj_set.
Qed.

Lemma read_loop_other (w : node) (repoPath : jsstring) (file_paths : list jsstring)
    (k : jsstring) :
  ~ In k file_paths ->
  forall results,
    obj_get (fold_left (read_one w repoPath) file_paths results) k = obj_get results k.
Proof.
  induction file_paths as [|p tl IH]; intros Hno results; simpl; auto.
  simpl in Hno. rewrite IH by tauto. rewrite read_one_eq. unfold obj_set.
  destruct (jsstring_eqb p PROTO); auto.
  apply obj_get_define_own_other. intros ->. tauto.
Qed.

Lemma read_loop_requested (w : node) (repoPath : jsstring) (file_paths : list jsstring)
    (p : jsstring) :
  In p file_paths -> p <> PROTO ->
  forall results,
    obj_get (fold_left (read_one w repoPath) file_paths results) p =
    Some (file_result w repoPath p).
Proof.
  intros Hin Hproto.
  induction file_paths as [|q tl IH]; intros results; simpl; [contradiction|].
  destruct (in_dec (list_eq_dec N.eq_dec) p tl) as [Htl|Htl]; [now apply IH|].
  destruct Hin as [->|Hin]; [|contradiction].
  rewrite read_loop_other by assumption. rewrite read_one_eq. unfold obj_set.
  apply jsstring_eqb_neq in Hproto. rewrite Hproto.
  apply obj_get_define_own.
Qed.

Lemma read_loop_proto (w : node) (repoPath : jsstring) (file_paths : list jsstring) :
  forall results,
    obj_get (fold_left (read_one w repoPath) file_paths results) PROTO =
    obj_get results PROTO.
Proof.
  induction file_paths as [|q tl IH]; intros results; simpl; auto.
  rewrite IH, read_one_eq. apply obj_get_obj_set_proto.
Qed.

(** What the reader does give: every requested path other than
    [__proto__] has exactly one entry, holding the content of the file or
    the marker of its failure, and the loop never stops early. *)
Lemma readAll_entry (w : node) (repoPath : jsstring) (file_paths : list jsstring)
    (p : jsstring) :
  In p file_paths -> p <> PROTO ->
  obj_get (readAll w repoPath file_paths) p = Some (file_result w repoPath p) /\
  entries_for (readAll w repoPath file_paths) p = 1.
Proof.
  intros Hin Hproto. unfold readAll.
  pose proof (read_loop_requested w repoPath _ Hin Hproto []) as Hget.
  split; [exact Hget|].
  apply entries_for_key.
  - apply read_loop_NoDup. constructor.
  - apply obj_get_In_keys. congruence.
Qed.

Lemma readAll_only_requested (w : node) (repoPath : jsstring)
    (file_paths : list jsstring) (k : jsstring) :
  obj_get (readAll w repoPath file_paths) k <> None -> In k file_paths.
Proof.
  intros Hget. destruct (in_dec (list_eq_dec N.eq_dec) k file_paths) as [H|H]; auto.
  unfold readAll in Hget. rewrite read_loop_other in Hget by assumption.
  simpl in Hget. congruence.
Qed.

Lemma readAll_empty (w : node) (repoPath : jsstring) :
  readAll w repoPath [] = [] /\ JSON_stringify (readAll w repoPath []) = lit "{}".
Proof. split; reflexivity. Qed.

Lemma readAll_proto_absent (w : node) (repoPath : jsstring)
    (file_paths : list jsstring) :
  obj_get (readAll w repoPath file_paths) PROTO = None.
Proof. unfold readAll. now rewrite read_loop_proto. Qed.

(** C4, where it fails: a requested path [__proto__] never gets an
    entry, whatever the file system holds and whatever else is
    requested. *)
Theorem readAll_proto_has_no_entry (w : node) (repoPath : jsstring)
    (file_paths : list jsstring) :
  obj_get (readAll w repoPath file_paths) PROTO = None /\
  entries_for (readAll w repoPath file_paths) PROTO = 0 /\
  readAll w repoPath [PROTO] = [].
Proof.
  split; [|split].
  - unfold readAll. now rewrite read_loop_proto.
  - apply entries_for_not_key. intros Hin. apply obj_get_In_keys in Hin.
    apply Hin. unfold readAll. now rewrite read_loop_proto.
  - unfold readAll. simpl. rewrite read_one_eq. reflexivity.
Qed.

(** The example of the specification, and the path that is lost. *)
Lemma readAll_examples :
  readAll sample_world sample_dir [lit "a.txt"; lit "missing.txt"] =
    [(lit "a.txt", lit "hello"); (lit "missing.txt", lit "Error: File not found")] /\
  readAll sample_world sample_dir [lit "locked.txt"; lit "__proto__"; lit ".git"] =
    [(lit "locked.txt", lit "Error reading file: EACCES: permission denied, open");
     (lit ".git", lit "Error reading file: EISDIR: illegal operation on a directory, read")].
Proof. split; vm_compute; reflexivity. Qed.

(** ** The file system *)

Lemma alist_get_set (name : jsstring) (c : node) (es : list dirent) :
  alist_get name (alist_set name c es) = Some c.
Proof.
  induction es as [|[k d] tl IH]; simpl.
  - now rewrite jsstring_eqb_refl.
  - destruct (jsstring_eqb k name) eqn:E; simpl; now rewrite E.
Qed.

Lemma alist_get_del (name : jsstring) (es : list dirent) :
  alist_get name (alist_del name es) = None.
Proof.
  induction es as [|[k d] tl IH]; simpl; auto.
  destruct (jsstring_eqb k name) eqn:E; simpl; auto. now rewrite E.
Qed.

Lemma alist_set_same (name : jsstring) (c : node) (es : list dirent) :
  alist_get name es = Some c -> alist_set name c es = es.
Proof.
  induction es as [|[k d] tl IH]; simpl; [discriminate|].
  destruct (jsstring_eqb k name) eqn:E.
  - now intros [= ->].
  - intros H. now rewrite IH.
Qed.

Lemma walk_put_at (segs : list jsstring) (x : node) :
  forall n y, walk segs n = Some y -> walk segs (put_at segs x n) = Some x.
Proof.
  induction segs as [|s rest IH]; intros n y; simpl; auto.
  destruct n as [data|git es|err|err]; try discriminate.
  destruct (alist_get s es) as [c|] eqn:E; [|discriminate].
  intros Hw. simpl. rewrite alist_get_set. eapply IH, Hw.
Qed.

Lemma walk_remove_at (segs : list jsstring) :
  segs <> [] -> forall n, walk segs (remove_at segs n) = None.
Proof.
  induction segs as [|s rest IH]; intros Hne n; [congruence|].
  destruct n as [data|git es|err|err]; simpl; auto.
  destruct rest as [|s' rest].
  - simpl. now rewrite alist_get_del.
  - destruct (alist_get s es) as [c|] eqn:E.
    + cbn [walk]. rewrite alist_get_set. apply IH. discriminate.
    + cbn [walk]. now rewrite E.
Qed.

Lemma walk_empty_dir (segs : list jsstring) :
  match walk segs empty_dir with Some x => x | None => empty_dir end = empty_dir.
Proof. destruct segs; reflexivity. Qed.

(** After [mkdir -p] the path names the directory that was there, or a
    new empty one. *)
Lemma walk_mkdirp (segs : list jsstring) :
  forall n n', mkdirp segs n = Some n' ->
    exists x, walk segs n' = Some x /\
      ((walk segs n = Some x /\ dir_like x) \/ (walk segs n = None /\ x = empty_dir)).
Proof.
  induction segs as [|s rest IH]; intros n n'; simpl.
  - destruct n; intros [= <-]; eexists; split; eauto; left; simpl; auto.
  - destruct n as [data|git es|err|err]; try discriminate.
    destruct (alist_get s es) as [c|] eqn:E.
    + destruct (mkdirp rest c) as [c'|] eqn:Hc; [|discriminate].
      intros [= <-]. simpl. rewrite alist_get_set. eapply IH, Hc.
    + destruct (mkdirp rest empty_dir) as [c'|] eqn:Hc; [|discriminate].
      intros [= <-]. simpl. rewrite alist_get_set.
      destruct (IH _ _ Hc) as (x & Hx & Hcase). exists x. split; [exact Hx|].
      right. split; [reflexivity|].
      destruct Hcase as [[Hw _]|[_ ->]]; [|reflexivity].
      pose proof (walk_empty_dir rest) as He. rewrite Hw in He. exact He.
Qed.

Lemma mkdirp_existing (segs : list jsstring) :
  forall n x, walk segs n = Some x -> dir_like x -> mkdirp segs n = Some n.
Proof.
  induction segs as [|s rest IH]; intros n x; simpl.
  - intros [= ->] Hd. destruct x; simpl in Hd; tauto.
  - destruct n as [data|git es|err|err]; try discriminate.
    destruct (alist_get s es) as [c|] eqn:E; [|discriminate].
    intros Hw Hd. rewrite (IH _ _ Hw Hd). now rewrite alist_set_same.
Qed.

Lemma exists_at_false_walk (w : node) (p : jsstring) (x : node) :
  exists_at w p = false -> walk (path_segs p) w = Some x -> ~ dir_like x.
Proof.
  unfold exists_at. intros He Hw. rewrite Hw in He. destruct x; simpl; auto; discriminate.
Qed.

(** ** [cloneRepo] *)

Lemma fetches_app (l1 l2 : list event) : fetches (l1 ++ l2) = fetches l1 + fetches l2.
Proof. unfold fetches. now rewrite filter_app, length_app. Qed.

Lemma first_remote_is_true (remotes : list remote) (repoUrl : jsstring) :
  first_remote_is remotes repoUrl = true <->
  exists r rs, remotes = r :: rs /\ refs_fetch r = repoUrl.
Proof.
  destruct remotes as [|r rs]; simpl.
  - split; [discriminate|]. intros (r & rs & H & _). discriminate.
  - rewrite jsstring_eqb_eq. split; eauto. intros (r' & rs' & [= <- <-] & H). exact H.
Qed.

Lemma cloneRepo_unfold (e : env) (repoUrl : jsstring) :
  cloneRepo e repoUrl =
  bind (reuse e repoUrl (tempDir e repoUrl))
       (fun reused => match reused with
                      | Some d => ret d
                      | None => clone_fresh e repoUrl (tempDir e repoUrl)
                      end).
Proof. reflexivity. Qed.

(** Lines 26-37, case by case. *)
Lemma reuse_cases (e : env) (repoUrl dir : jsstring) (w : node) :
  reuse e repoUrl dir w =
  if exists_at w dir then
    match remotes_at w dir with
    | Ok remotes =>
        (Ok (if first_remote_is remotes repoUrl then Some dir else None),
         w, [EvGetRemotes dir])
    | Throw _ =>
        match fault e RemoveStale with
        | Some message => (Throw message, w, [EvGetRemotes dir; EvRemove dir])
        | None => (Ok None, remove_at (path_segs dir) w,
                   [EvGetRemotes dir; EvRemove dir])
        end
    end
  else (Ok None, w, []).
Proof.
  unfold reuse, bind, try_catch, pathExists, getRemotes, fs_remove, ret.
  destruct (exists_at w dir); [|reflexivity].
  destruct (remotes_at w dir) as [remotes|message].
  - destruct (first_remote_is remotes repoUrl); reflexivity.
  - destruct (fault e RemoveStale); reflexivity.
Qed.

(** Lines 40-48, case by case. *)
Lemma clone_fresh_cases (e : env) (repoUrl dir : jsstring) (w : node) :
  clone_fresh e repoUrl dir w =
  match fault e EnsureDir with
  | Some message => (Throw message, w, [EvEnsureDir dir])
  | None =>
      match mkdirp (path_segs dir) w with
      | None => (Throw (ALREADY_EXISTS dir), w, [EvEnsureDir dir])
      | Some w' =>
          match walk (path_segs dir) w' with
          | Some (Dir _ []) =>
              match remote_repo e repoUrl with
              | Fetched remotes entries =>
                  (Ok dir,
                   put_at (path_segs dir) (working_copy remotes entries) w',
                   [EvEnsureDir dir; EvClone repoUrl dir])
              | FetchFailed message leftover =>
                  failed_clone e repoUrl dir message
                    (put_at (path_segs dir) (Dir (Throw NOT_A_REPOSITORY) leftover) w')
              end
          | _ => failed_clone e repoUrl dir (DESTINATION_NOT_EMPTY dir) w'
          end
      end
  end.
Proof.
  unfold clone_fresh, failed_clone, bind, try_catch, fs_ensureDir, git_clone,
    fs_remove, ret, throw, working_copy.
  destruct (fault e EnsureDir); [reflexivity|].
  destruct (mkdirp (path_segs dir) w) as [w'|]; [|reflexivity].
  destruct (walk (path_segs dir) w') as [[data|git [|kv es]|err|err]|];
    try (destruct (fault e RemoveFailedClone); reflexivity).
  destruct (remote_repo e repoUrl); [reflexivity|].
  destruct (fault e RemoveFailedClone); reflexivity.
Qed.

Lemma failed_clone_not_ok (e : env) (repoUrl dir message : jsstring) (w w1 : node)
    (p : jsstring) (log : list event) :
  failed_clone e repoUrl dir message w <> (Ok p, w1, log).
Proof. unfold failed_clone. destruct (fault e RemoveFailedClone); discriminate. Qed.

(** A successful [clone_fresh] is one [git clone] into an empty
    directory. *)
Lemma clone_fresh_ok_inv (e : env) (repoUrl dir : jsstring) (w w1 : node)
    (p : jsstring) (log : list event) :
  clone_fresh e repoUrl dir w = (Ok p, w1, log) ->
  p = dir /\ log = [EvEnsureDir dir; EvClone repoUrl dir] /\
  exists w' git remotes entries,
    walk (path_segs dir) w' = Some (Dir git []) /\
    remote_repo e repoUrl = Fetched remotes entries /\
    w1 = put_at (path_segs dir) (working_copy remotes entries) w'.
Proof.
  rewrite clone_fresh_cases.
  destruct (fault e EnsureDir); [discriminate|].
  destruct (mkdirp (path_segs dir) w) as [w'|]; [|discriminate].
  destruct (walk (path_segs dir) w') as [[data|git [|kv es]|err|err]|] eqn:Hw;
    try (intros H; now apply failed_clone_not_ok in H).
  destruct (remote_repo e repoUrl) as [remotes entries|message leftover] eqn:Hr;
    [|intros H; now apply failed_clone_not_ok in H].
  intros [= <- <- <-]. repeat split. exists w', git, remotes, entries. auto.
Qed.


(** Every successful run either found the cache directory reusable and
    touched nothing, or ended with one [git clone] into an empty
    directory. *)
Lemma cloneRepo_ok_inv (e : env) (repoUrl : jsstring) (w w1 : node)
    (p : jsstring) (log : list event) :
  cloneRepo e repoUrl w = (Ok p, w1, log) ->
  p = tempDir e repoUrl /\
  ((w1 = w /\ log = [EvGetRemotes p] /\
    exists r rs es, walk (path_segs p) w = Some (Dir (Ok (r :: rs)) es) /\
                    refs_fetch r = repoUrl) \/
   (exists w' git remotes entries before,
      walk (path_segs p) w' = Some (Dir git []) /\
      remote_repo e repoUrl = Fetched remotes entries /\
      w1 = put_at (path_segs p) (working_copy remotes entries) w' /\
      log = before ++ [EvEnsureDir p; EvClone repoUrl p] /\
      fetches before = 0)).
Proof.
  rewrite cloneRepo_unfold. unfold bind. rewrite reuse_cases.
  set (dir := tempDir e repoUrl).
  assert (Hfresh : forall w0 before,
             fetches before = 0 ->
             (let '(r, w2, l2) := clone_fresh e repoUrl dir w0 in
              (r, w2, before ++ l2)) = (Ok p, w1, log) ->
             p = dir /\
             exists w' git remotes entries before,
               walk (path_segs p) w' = Some (Dir git []) /\
               remote_repo e repoUrl = Fetched remotes entries /\
               w1 = put_at (path_segs p) (working_copy remotes entries) w' /\
               log = before ++ [EvEnsureDir p; EvClone repoUrl p] /\
               fetches before = 0).
  { intros w0 before Hb.
    destruct (clone_fresh e repoUrl dir w0) as [[r w2] l2] eqn:Hc.
    intros [= -> -> <-]. apply clone_fresh_ok_inv in Hc.
    destruct Hc as (-> & -> & w' & git & remotes & entries & Hw & Hr & ->).
    split; [reflexivity|]. exists w', git, remotes, entries, before. auto. }
  destruct (exists_at w dir) eqn:Hex.
  - unfold remotes_at.
    destruct (walk (path_segs dir) w) as [[data|git es|err|err]|] eqn:Hw;
      try (destruct (fault e RemoveStale); [discriminate|];
           intros H; apply Hfresh in H; [|reflexivity];
           destruct H as [-> H]; split; [reflexivity|right; exact H]).
    destruct git as [remotes|message].
    + destruct (first_remote_is remotes repoUrl) eqn:Hfirst.
      * unfold ret. intros [= <- <- <-]. split; [reflexivity|]. left.
        apply first_remote_is_true in Hfirst. destruct Hfirst as (r & rs & -> & Hr).
        repeat split. eauto.
      * intros H. apply Hfresh in H; [|reflexivity].
        destruct H as [-> H]. split; [reflexivity|right; exact H].
    + destruct (fault e RemoveStale); [discriminate|].
      intros H. apply Hfresh in H; [|reflexivity].
      destruct H as [-> H]. split; [reflexivity|right; exact H].
  - intros H. apply (Hfresh w []) in H; [|reflexivity].
    destruct H as [-> H]. split; [reflexivity|right; exact H].
Qed.




(** C2, where it fails: a cache directory whose first remote does not
    fetch from the requested URL is not removed before the clone; the
    clone is attempted into the directory as it stands, git refuses the
    destination that is not empty, and the call removes the directory
    and fails. *)
Theorem cloneRepo_mismatch_not_removed (e : env) (repoUrl : jsstring) (w : node)
    (remotes : list remote) (kv : dirent) (es : list dirent) :
  walk (path_segs (tempDir e repoUrl)) w = Some (Dir (Ok remotes) (kv :: es)) ->
  first_remote_is remotes repoUrl = false ->
  fault e EnsureDir = None ->
  fault e RemoveFailedClone = None ->
  cloneRepo e repoUrl w =
    (Throw (lit "Failed to clone repository: " ++
            DESTINATION_NOT_EMPTY (tempDir e repoUrl)),
     remove_at (path_segs (tempDir e repoUrl)) w,
     [EvGetRemotes (tempDir e repoUrl); EvEnsureDir (tempDir e repoUrl);
      EvClone repoUrl (tempDir e repoUrl); EvRemove (tempDir e repoUrl)]).
Proof.
  intros Hw Hfirst Hensure Hremove.
  rewrite cloneRepo_unfold. unfold bind. rewrite reuse_cases.
  unfold exists_at, remotes_at. rewrite Hw, Hfirst.
  rewrite clone_fresh_cases, Hensure.
  rewrite (mkdirp_existing _ _ Hw I), Hw.
  unfold failed_clone. rewrite Hremove. reflexivity.
Qed.

Lemma cloneRepo_mismatch_not_removed_witness :
  cloneRepo sample_env sample_url repointed_world =
    (Throw (lit "Failed to clone repository: " ++ DESTINATION_NOT_EMPTY sample_dir),
     empty_world,
     [EvGetRemotes sample_dir; EvEnsureDir sample_dir;
      EvClone sample_url sample_dir; EvRemove sample_dir]).
Proof.
  change sample_dir with (tempDir sample_env sample_url).
  change empty_world
    with (remove_at (path_segs (tempDir sample_env sample_url)) repointed_world).
  eapply cloneRepo_mismatch_not_removed; vm_compute; reflexivity.
Defined.

(** C3: provided the [fs.remove] of the [catch] block does not throw.
    When the cache directory does not exist, can be created, and the
    clone into it fails, [cloneRepo] removes the directory again and
    throws an error whose message carries the cause; and whatever the
    state it started from, a run that issued a [git clone] and did not
    succeed has thrown [Failed to clone repository: ] followed by the
    error of that clone, after removing the directory.  Afterwards the
    path of the cache directory names nothing. *)
Theorem cloneRepo_failed_fetch_cleans_up (e : env) (repoUrl : jsstring) (w : node) :
  fault e RemoveFailedClone = None ->
  (forall cause leftover,
     exists_at w (tempDir e repoUrl) = false ->
     fault e EnsureDir = None ->
     mkdirp (path_segs (tempDir e repoUrl)) w <> None ->
     remote_repo e repoUrl = FetchFailed cause leftover ->
     exists w1,
       cloneRepo e repoUrl w =
         (Throw (lit "Failed to clone repository: " ++ cause), w1,
          [EvEnsureDir (tempDir e repoUrl); EvClone repoUrl (tempDir e repoUrl);
           EvRemove (tempDir e repoUrl)]) /\
       walk (path_segs (tempDir e repoUrl)) w1 = None /\
       exists_at w1 (tempDir e repoUrl) = false) /\
  (forall r w1 log,
     cloneRepo e repoUrl w = (r, w1, log) ->
     fetches log = 1 ->
     (forall p, r <> Ok p) ->
     exists cause before,
       r = Throw (lit "Failed to clone repository: " ++ cause) /\
       ((exists leftover, remote_repo e repoUrl = FetchFailed cause leftover) \/
        cause = DESTINATION_NOT_EMPTY (tempDir e repoUrl)) /\
       log = before ++ [EvClone repoUrl (tempDir e repoUrl);
                        EvRemove (tempDir e repoUrl)] /\
       walk (path_segs (tempDir e repoUrl)) w1 = None /\
       exists_at w1 (tempDir e repoUrl) = false).
Proof.
  intros Hremove.
  assert (Hgone : forall w0,
             walk (path_segs (tempDir e repoUrl))
                  (remove_at (path_segs (tempDir e repoUrl)) w0) = None)
    by (intros w0; apply walk_remove_at, tempDir_segs_nonempty).
  split.
  - intros cause leftover Habsent Hensure Hmk Hremote.
    rewrite cloneRepo_unfold. unfold bind. rewrite reuse_cases, Habsent.
    rewrite clone_fresh_cases, Hensure.
    destruct (mkdirp (path_segs (tempDir e repoUrl)) w) as [w'|] eqn:Hw'; [|congruence].
    destruct (walk_mkdirp _ _ Hw') as (x & Hx & [[Hold Hdir]|[_ ->]]).
    { exfalso. exact (exists_at_false_walk _ _ Habsent Hold Hdir). }
    rewrite Hx. unfold empty_dir. rewrite Hremote.
    unfold failed_clone. rewrite Hremove. eexists. split; [reflexivity|].
    split; [apply Hgone|]. unfold exists_at. now rewrite Hgone.
  - intros r w1 log. rewrite cloneRepo_unfold. unfold bind. rewrite reuse_cases.
    set (dir := tempDir e repoUrl) in *.
    assert (Hfresh : forall w0 before,
               fetches before = 0 ->
               (let '(r0, w2, l2) := clone_fresh e repoUrl dir w0 in
                (r0, w2, before ++ l2)) = (r, w1, log) ->
               fetches log = 1 ->
               (forall p, r <> Ok p) ->
               exists cause before,
                 r = Throw (lit "Failed to clone repository: " ++ cause) /\
                 ((exists leftover, remote_repo e repoUrl = FetchFailed cause leftover) \/
                  cause = DESTINATION_NOT_EMPTY dir) /\
                 log = before ++ [EvClone repoUrl dir; EvRemove dir] /\
                 walk (path_segs dir) w1 = None /\
                 exists_at w1 dir = false).
    { intros w0 before Hb. rewrite clone_fresh_cases.
      assert (Hfailed : forall message w2,
                 ((exists leftover, remote_repo e repoUrl = FetchFailed message leftover) \/
                  message = DESTINATION_NOT_EMPTY dir) ->
                 (let '(r0, w3, l3) := failed_clone e repoUrl dir message w2 in
                  (r0, w3, before ++ l3)) = (r, w1, log) ->
                 fetches log = 1 ->
                 (forall p, r <> Ok p) ->
                 exists cause before,
                   r = Throw (lit "Failed to clone repository: " ++ cause) /\
                   ((exists leftover,
                       remote_repo e repoUrl = FetchFailed cause leftover) \/
                    cause = DESTINATION_NOT_EMPTY dir) /\
                   log = before ++ [EvClone repoUrl dir; EvRemove dir] /\
                   walk (path_segs dir) w1 = None /\
                   exists_at w1 dir = false).
      { intros message w2 Hcause. unfold failed_clone. rewrite Hremove.
        intros [= <- <- <-] _ _.
        exists message, (before ++ [EvEnsureDir dir]).
        split; [reflexivity|]. split; [exact Hcause|].
        split; [now rewrite <- app_assoc|].
        split; [apply Hgone|]. unfold exists_at. now rewrite Hgone. }
      assert (Hnone : forall (r0 : result jsstring) w2 l2,
                 fetches l2 = 0 ->
                 (r0, w2, before ++ l2) = (r, w1, log) ->
                 fetches log = 1 ->
                 (forall p, r <> Ok p) ->
                 exists cause before,
                   r = Throw (lit "Failed to clone repository: " ++ cause) /\
                   ((exists leftover,
                       remote_repo e repoUrl = FetchFailed cause leftover) \/
                    cause = DESTINATION_NOT_EMPTY dir) /\
                   log = before ++ [EvClone repoUrl dir; EvRemove dir] /\
                   walk (path_segs dir) w1 = None /\
                   exists_at w1 dir = false).
      { intros r0 w2 l2 Hl2 [= <- <- <-] Hone _.
        rewrite fetches_app, Hb, Hl2 in Hone. discriminate. }
      destruct (fault e EnsureDir); [now apply Hnone|].
      destruct (mkdirp (path_segs dir) w0) as [w'|]; [|now apply Hnone].
      destruct (walk (path_segs dir) w') as [[data|git [|kv es]|err|err]|];
        try (apply Hfailed; now right).
      destruct (remote_repo e repoUrl) as [remotes entries|message leftover] eqn:Hremote.
      - intros [= <- <- <-] _ Hnot. exfalso. now apply (Hnot dir).
      - apply Hfailed. left. now exists leftover. }
    destruct (exists_at w dir).
    + destruct (remotes_at w dir) as [remotes|message].
      * destruct (first_remote_is remotes repoUrl).
        -- unfold ret. intros [= <- <- <-] _ Hnot. exfalso. now apply (Hnot dir).
        -- now apply Hfresh.
      * destruct (fault e RemoveStale).
        -- intros [= <- <- <-] Hone. discriminate.
        -- now apply Hfresh.
    + now apply (Hfresh w []).
Qed.

Lemma cloneRepo_failed_fetch_cleans_up_witness :
  (exists w1,
     cloneRepo unreachable_env sample_url empty_world =
       (Throw (lit "Failed to clone repository: fatal: unable to access the remote"),
        w1,
        [EvEnsureDir sample_dir; EvClone sample_url sample_dir; EvRemove sample_dir]) /\
     walk (path_segs sample_dir) w1 = None /\
     exists_at w1 sample_dir = false) /\
  (exists cause before,
     fst (fst (cloneRepo sample_env sample_url repointed_world)) =
       Throw (lit "Failed to clone repository: " ++ cause) /\
     ((exists leftover, remote_repo sample_env sample_url = FetchFailed cause leftover) \/
      cause = DESTINATION_NOT_EMPTY sample_dir) /\
     snd (cloneRepo sample_env sample_url repointed_world) =
       before ++ [EvClone sample_url sample_dir; EvRemove sample_dir] /\
     walk (path_segs sample_dir)
          (snd (fst (cloneRepo sample_env sample_url repointed_world))) = None /\
     exists_at (snd (fst (cloneRepo sample_env sample_url repointed_world)))
               sample_dir = false).
Proof.
  split.
  - destruct (@cloneRepo_failed_fetch_cleans_up unreachable_env sample_url empty_world
                eq_refl) as [Hfresh _].
    change sample_dir with (tempDir unreachable_env sample_url).
    eapply Hfresh; try (vm_compute; reflexivity).
    vm_compute. discriminate.
  - destruct (@cloneRepo_failed_fetch_cleans_up sample_env sample_url repointed_world
                eq_refl) as [_ Hany].
    change sample_dir with (tempDir sample_env sample_url).
    apply Hany.
    + destruct (cloneRepo sample_env sample_url repointed_world) as [[r w1] log].
      reflexivity.
    + vm_compute. reflexivity.
    + intros p. vm_compute. discriminate.
Defined.

(** C3 as it was stated, without the proviso: the clone into the fresh
    directory fails with its cause, the [fs.remove] of the [catch] block
    throws, and the error thrown is that of [fs.remove]; the directory
    is still there. *)
Lemma cloneRepo_failed_fetch_cleanup_throws :
  exists_at empty_world sample_dir = false /\
  remote_repo stuck_cleanup_env sample_url =
    FetchFailed (lit "fatal: unable to access the remote")
                [(lit "half", File (Ok []))] /\
  exists w1,
    cloneRepo stuck_cleanup_env sample_url empty_world =
      (Throw (lit "EBUSY: resource busy or locked"), w1,
       [EvEnsureDir sample_dir; EvClone sample_url sample_dir; EvRemove sample_dir]) /\
    exists_at w1 sample_dir = true.
Proof.
  split; [vm_compute; reflexivity|].
  split; [vm_compute; reflexivity|].
  eexists. split; vm_compute; reflexivity.
Qed.

(** ** The handlers *)

(** *** What [JSON.stringify] prints *)

Lemma json_escape_plain_app (s t : jsstring) :
  forallb json_plain s = true -> json_escape (s ++ t) = s ++ json_escape t.
Proof.
  induction s as [|c s IH]; [reflexivity|].
  simpl forallb. intros H. apply andb_prop in H. destruct H as [Hc Hs].
  unfold json_plain in Hc.
  apply andb_prop in Hc. destruct Hc as [Hc Hlow].
  apply andb_prop in Hc. destruct Hc as [Hc Hhigh].
  apply andb_prop in Hc. destruct Hc as [Hc Hbackslash].
  apply andb_prop in Hc. destruct Hc as [Hc Hquote].
  apply N.leb_le in Hc.
  apply negb_true_iff in Hlow, Hhigh, Hbackslash, Hquote.
  change ((c :: s) ++ t) with (c :: (s ++ t)).
  cbn [json_escape].
  replace (N.eqb c 8) with false by (symmetry; apply N.eqb_neq; lia).
  replace (N.eqb c 9) with false by (symmetry; apply N.eqb_neq; lia).
  replace (N.eqb c 10) with false by (symmetry; apply N.eqb_neq; lia).
  replace (N.eqb c 12) with false by (symmetry; apply N.eqb_neq; lia).
  replace (N.eqb c 13) with false by (symmetry; apply N.eqb_neq; lia).
  rewrite Hquote, Hbackslash.
  replace (c <? 32)%N with false by (symmetry; apply N.ltb_ge; lia).
  rewrite Hhigh, Hlow. now rewrite IH.
Qed.

Lemma json_escape_plain (s : jsstring) :
  forallb json_plain s = true -> json_escape s = s.
Proof.
  intros H. rewrite <- (app_nil_r s) at 1.
  rewrite json_escape_plain_app by exact H. apply app_nil_r.
Qed.

Lemma insert_index_perm (x : N * (jsstring * jsstring))
    (l : list (N * (jsstring * jsstring))) :
  Permutation (insert_index x l) (x :: l).
Proof.
  induction l as [|y l IH]; simpl; [reflexivity|].
  destruct (fst x <=? fst y)%N; [reflexivity|].
  rewrite IH. apply perm_swap.
Qed.

Lemma sort_index_perm (l : list (N * (jsstring * jsstring))) :
  Permutation (fold_right insert_index [] l) l.
Proof.
  induction l as [|x l IH]; simpl; [reflexivity|].
  rewrite insert_index_perm. now constructor.
Qed.

(** Enumeration reorders the properties and neither drops nor repeats
    one. *)
Lemma own_properties_perm (o : object) : Permutation (own_properties o) o.
Proof.
  unfold own_properties. rewrite sort_index_perm.
  induction o as [|kv o IH]; simpl; [reflexivity|].
  destruct (array_index (fst kv)); simpl.
  - now constructor.
  - rewrite <- Permutation_middle. now constructor.
Qed.

Lemma obj_get_In (o : object) (k v : jsstring) :
  obj_get o k = Some v -> In (k, v) o.
Proof.
  induction o as [|[k' v'] o IH]; simpl; [discriminate|].
  destruct (jsstring_eqb k' k) eqn:Hk.
  - apply jsstring_eqb_eq in Hk. intros [= ->]. left. now subst.
  - intros H. right. now apply IH.
Qed.

Lemma JSON_stringify_lines (o : object) :
  o <> [] ->
  JSON_stringify o =
    [123; 10]%N ++ join_with [44; 10]%N (map json_line (own_properties o)) ++
    [10; 125]%N.
Proof.
  intros Ho. unfold JSON_stringify.
  destruct (own_properties o) as [|kv props] eqn:Hprops.
  - exfalso. apply Ho. apply Permutation_nil.
    rewrite <- Hprops. apply own_properties_perm.
  - assert (Hmap : forall l : list (jsstring * jsstring),
               map (fun kv => lit "  " ++ json_quote (fst kv) ++ lit ": " ++
                              json_quote (snd kv)) l = map json_line l).
    { intros l. apply map_ext. intros [k v].
      unfold json_line, json_quote, QUOTE. cbn [fst snd app].
      rewrite <- !app_assoc. reflexivity. }
    now rewrite Hmap.
Qed.

Lemma JSON_stringify_error (message : jsstring) :
  JSON_stringify [(lit "error", lit "Failed to process repository: " ++ message)] =
    error_envelope (json_escape message).
Proof.
  rewrite JSON_stringify_lines by discriminate.
  replace (own_properties
             [(lit "error", lit "Failed to process repository: " ++ message)])
    with [(lit "error", lit "Failed to process repository: " ++ message)]
    by reflexivity.
  unfold error_envelope, json_line. cbn [map join_with fst snd].
  rewrite json_escape_plain_app by (vm_compute; reflexivity).
  rewrite (@json_escape_plain (lit "error")) by (vm_compute; reflexivity).
  rewrite <- !app_assoc. reflexivity.
Qed.

(** C7: when [cloneRepo] throws, each handler resolves to a result whose
    [isError] is set and whose text is the message after a fixed
    prefix: [Error: ] for the directory handler; for the file reader the
    JSON text of an object whose only property [error] holds
    [Failed to process repository: ] and the message, which is printed
    as it is where it needs no escape.  When [cloneRepo] succeeds, the
    file reader resolves without [isError] to the JSON text of the
    object of results, which has one line for each property, no key
    twice, and for every requested path other than [__proto__] the
    property holding the content of the file or the marker of its
    failure; for the one requested path [__proto__] the text is [{}]:
    the file error of that path is not embedded.  In the JSON text a
    quote, a backslash and a control character are escaped, and a lone
    surrogate is written as [\u] and four digits. *)
Theorem acquisition_failure_is_soft_failure (e : env) (repo_url : jsstring)
    (file_paths : list jsstring) (w : node) :
  (forall message w1 log,
     cloneRepo e repo_url w = (Throw message, w1, log) ->
     handleGitDirectoryStructure e repo_url w =
       (Ok (mkResponse (lit "Error: " ++ message) true), w1, log) /\
     handleGitReadImportantFiles e repo_url file_paths w =
       (Ok (mkResponse (error_envelope (json_escape message)) true), w1, log) /\
     (forallb json_plain message = true -> json_escape message = message)) /\
  (forall repoPath w1 log,
     cloneRepo e repo_url w = (Ok repoPath, w1, log) ->
     handleGitReadImportantFiles e repo_url file_paths w =
       (Ok (mkResponse (JSON_stringify (readAll w1 repoPath file_paths)) false),
        w1, log) /\
     NoDup (keys (own_properties (readAll w1 repoPath file_paths))) /\
     (forall p,
        In p file_paths -> p <> PROTO ->
        In (p, file_result w1 repoPath p)
           (own_properties (readAll w1 repoPath file_paths)) /\
        JSON_stringify (readAll w1 repoPath file_paths) =
          [123; 10]%N ++
          join_with [44; 10]%N
            (map json_line (own_properties (readAll w1 repoPath file_paths))) ++
          [10; 125]%N) /\
     handleGitReadImportantFiles e repo_url [PROTO] w =
       (Ok (mkResponse (lit "{}") false), w1, log)) /\
  json_escape [34; 92; 10; 9; 1; 0xD800; 0xD83D; 0xDE00; 0x41]%N =
    [92; 34; 92; 92; 92; 110; 92; 116]%N ++ UESC ++ lit "0001" ++
    UESC ++ lit "d800" ++ [0xD83D; 0xDE00; 0x41]%N.
Proof.
  split; [|split; [|vm_compute; reflexivity]].
  - intros message w1 log Hclone.
    unfold handleGitDirectoryStructure, handleGitReadImportantFiles,
      try_catch, bind, ret.
    rewrite Hclone. rewrite app_nil_r.
    split; [reflexivity|]. split; [now rewrite JSON_stringify_error|].
    apply json_escape_plain.
  - intros repoPath w1 log Hclone.
    assert (Hrun : forall paths,
               handleGitReadImportantFiles e repo_url paths w =
                 (Ok (mkResponse (JSON_stringify (readAll w1 repoPath paths)) false),
                  w1, log)).
    { intros paths. unfold handleGitReadImportantFiles, try_catch, bind, ret.
      rewrite Hclone. now rewrite !app_nil_r. }
    split; [apply Hrun|]. split; [|split].
    + unfold keys.
      apply (Permutation_NoDup
               (l := map fst (readAll w1 repoPath file_paths))).
      * apply Permutation_map. symmetry. apply own_properties_perm.
      * apply read_loop_NoDup. constructor.
    + intros p Hin Hproto.
      destruct (readAll_entry w1 repoPath _ Hin Hproto) as [Hget _].
      apply obj_get_In in Hget. split.
      * apply (Permutation_in (l := readAll w1 repoPath file_paths)); [|exact Hget].
        symmetry. apply own_properties_perm.
      * apply JSON_stringify_lines. intros Hnil. now rewrite Hnil in Hget.
    + rewrite Hrun. unfold readAll. simpl fold_left. rewrite read_one_eq.
      reflexivity.
Qed.

Lemma unreachable_remote_run :
  cloneRepo unreachable_env sample_url empty_world =
    (Throw (lit "Failed to clone repository: fatal: unable to access the remote"),
     empty_world,
     [EvEnsureDir sample_dir; EvClone sample_url sample_dir; EvRemove sample_dir]).
Proof. vm_compute. reflexivity. Qed.

Lemma acquisition_failure_is_soft_failure_witness :
  handleGitDirectoryStructure unreachable_env sample_url empty_world =
      (Ok (mkResponse
             (lit "Error: Failed to clone repository: fatal: unable to access the remote")
             true),
       empty_world,
       [EvEnsureDir sample_dir; EvClone sample_url sample_dir; EvRemove sample_dir]) /\
  handleGitReadImportantFiles unreachable_env sample_url [lit "a.txt"] empty_world =
    (Ok (mkResponse
           ([123; 10]%N ++ lit "  " ++ QUOTE ++ lit "error" ++ QUOTE ++ lit ": " ++
            QUOTE ++
            lit "Failed to process repository: Failed to clone repository: fatal: unable to access the remote" ++
            QUOTE ++ [10; 125]%N)
           true),
     empty_world,
     [EvEnsureDir sample_dir; EvClone sample_url sample_dir; EvRemove sample_dir]) /\
  handleGitReadImportantFiles sample_env sample_url
      [lit "a.txt"; lit "missing.txt"] sample_world =
    (Ok (mkResponse
           ([123; 10]%N ++
            lit "  " ++ QUOTE ++ lit "a.txt" ++ QUOTE ++ lit ": " ++
              QUOTE ++ lit "hello" ++ QUOTE ++ [44; 10]%N ++
            lit "  " ++ QUOTE ++ lit "missing.txt" ++ QUOTE ++ lit ": " ++
              QUOTE ++ lit "Error: File not found" ++ QUOTE ++
            [10; 125]%N)
           false), sample_world, [EvGetRemotes sample_dir]) /\
  In (lit "missing.txt", lit "Error: File not found")
     (own_properties
        (readAll sample_world sample_dir [lit "a.txt"; lit "missing.txt"])) /\
  handleGitReadImportantFiles sample_env sample_url [PROTO] sample_world =
    (Ok (mkResponse (lit "{}") false), sample_world, [EvGetRemotes sample_dir]).
Proof.
  destruct (acquisition_failure_is_soft_failure unreachable_env sample_url
              [lit "a.txt"] empty_world) as [Hsoft _].
  destruct (acquisition_failure_is_soft_failure sample_env sample_url
              [lit "a.txt"; lit "missing.txt"] sample_world) as (_ & Hread & _).
  destruct (Hsoft _ _ _ unreachable_remote_run) as (Hdir & Hfiles & Hplain).
  destruct (Hread sample_dir sample_world [EvGetRemotes sample_dir])
    as (Hok & _ & Hentry & Hproto); [vm_compute; reflexivity|].
  split; [exact Hdir|]. split; [|split; [|split]].
  - rewrite Hfiles. rewrite Hplain by (vm_compute; reflexivity).
    reflexivity.
  - rewrite Hok. vm_compute. reflexivity.
  - change (lit "Error: File not found")
      with (file_result sample_world sample_dir (lit "missing.txt")).
    apply Hentry; [vm_compute; auto|vm_compute; discriminate].
  - exact Hproto.
Defined.

(* ================================================================= *)
(** * Further properties of the code *)

(** ** [cloneRepo]: the other paths through the function *)

Lemma mkdirp_cons (s : jsstring) (rest : list jsstring) git (es : list dirent) :
  mkdirp (s :: rest) (Dir git es) =
  match mkdirp rest (match alist_get s es with Some c => c | None => empty_dir end) with
  | Some c' => Some (Dir git (alist_set s c' es))
  | None => None
  end.
Proof. reflexivity. Qed.

Lemma remove_at_cons (s s' : jsstring) (rest : list jsstring) git (es : list dirent) :
  remove_at (s :: s' :: rest) (Dir git es) =
  match alist_get s es with
  | Some c => Dir git (alist_set s (remove_at (s' :: rest) c) es)
  | None => Dir git es
  end.
Proof. reflexivity. Qed.

Lemma mkdirp_after_remove (segs : list jsstring) :
  segs <> [] ->
  forall n x, walk segs n = Some x ->
    exists n', mkdirp segs (remove_at segs n) = Some n' /\
               walk segs n' = Some empty_dir.
Proof.
  induction segs as [|s rest IH]; intros Hne n x; [congruence|].
  destruct n as [data|git es|err|err]; cbn [walk]; try discriminate.
  destruct (alist_get s es) as [c|] eqn:E; [|discriminate].
  intros Hw. destruct rest as [|s' rest].
  - cbn [remove_at]. rewrite mkdirp_cons, alist_get_del. cbn [mkdirp empty_dir].
    eexists. split; [reflexivity|].
    cbn [walk]. now rewrite alist_get_set.
  - rewrite remove_at_cons, E, mkdirp_cons, alist_get_set.
    destruct (IH ltac:(discriminate) _ _ Hw) as (c'' & Hmk & Hwalk).
    rewrite Hmk. eexists. split; [reflexivity|].
    cbn [walk]. rewrite alist_get_set. exact Hwalk.
Qed.

Lemma exists_at_true_walk (w : node) (p : jsstring) :
  exists_at w p = true -> exists x, walk (path_segs p) w = Some x.
Proof.
  unfold exists_at. destruct (walk (path_segs p) w); [eauto|discriminate].
Qed.

(** X1: a cache directory in which git cannot list the remotes is removed
    and the repository is cloned afresh in its place. *)
Theorem cloneRepo_corrupt_cache_replaced (e : env) (repoUrl : jsstring) (w : node)
    (message : jsstring) (remotes : list remote) (entries : list dirent) :
  exists_at w (tempDir e repoUrl) = true ->
  remotes_at w (tempDir e repoUrl) = Throw message ->
  fault e RemoveStale = None ->
  fault e EnsureDir = None ->
  remote_repo e repoUrl = Fetched remotes entries ->
  exists w1,
    cloneRepo e repoUrl w =
      (Ok (tempDir e repoUrl), w1,
       [EvGetRemotes (tempDir e repoUrl); EvRemove (tempDir e repoUrl);
        EvEnsureDir (tempDir e repoUrl); EvClone repoUrl (tempDir e repoUrl)]) /\
    walk (path_segs (tempDir e repoUrl)) w1 = Some (working_copy remotes entries).
Proof.
  intros Hex Hrem Hstale Hensure Hremote.
  rewrite cloneRepo_unfold. unfold bind. rewrite reuse_cases, Hex, Hrem, Hstale.
  rewrite clone_fresh_cases, Hensure.
  destruct (exists_at_true_walk _ _ Hex) as [x Hx].
  destruct (mkdirp_after_remove (tempDir_segs_nonempty e repoUrl) _ Hx)
    as (w' & Hmk & Hw').
  rewrite Hmk, Hw'. unfold empty_dir. rewrite Hremote.
  eexists. split; [reflexivity|].
  eapply walk_put_at, Hw'.
Qed.

Lemma cloneRepo_corrupt_cache_replaced_witness :
  exists w1,
    cloneRepo sample_env sample_url corrupt_world =
      (Ok sample_dir, w1,
       [EvGetRemotes sample_dir; EvRemove sample_dir;
        EvEnsureDir sample_dir; EvClone sample_url sample_dir]) /\
    walk (path_segs sample_dir) w1 =
      Some (working_copy [mkRemote (lit "origin") sample_url sample_url]
              [(lit ".git", Dir (Throw NOT_A_REPOSITORY) []);
               (lit "a.txt", File (Ok (lit "hello")))]).
Proof.
  change sample_dir with (tempDir sample_env sample_url).
  eapply (@cloneRepo_corrupt_cache_replaced sample_env sample_url corrupt_world
            NOT_A_REPOSITORY);
    vm_compute; reflexivity.
Defined.

(** X2: when [fs.remove] of an unusable cache directory throws, or
    [fs.ensureDir] throws for a cache directory that does not exist, the
    error is thrown as it is (without the prefix of a failed clone), no
    [git clone] is issued and the file system is left as it was. *)
Theorem cloneRepo_filesystem_failure_propagates (e : env) (repoUrl : jsstring)
    (w : node) (failure : jsstring) :
  (forall message,
     exists_at w (tempDir e repoUrl) = true ->
     remotes_at w (tempDir e repoUrl) = Throw message ->
     fault e RemoveStale = Some failure ->
     cloneRepo e repoUrl w =
       (Throw failure, w,
        [EvGetRemotes (tempDir e repoUrl); EvRemove (tempDir e repoUrl)])) /\
  (exists_at w (tempDir e repoUrl) = false ->
   fault e EnsureDir = Some failure ->
   cloneRepo e repoUrl w = (Throw failure, w, [EvEnsureDir (tempDir e repoUrl)])).
Proof.
  split.
  - intros message Hex Hrem Hstale.
    rewrite cloneRepo_unfold. unfold bind. now rewrite reuse_cases, Hex, Hrem, Hstale.
  - intros Hex Hensure.
    rewrite cloneRepo_unfold. unfold bind.
    now rewrite reuse_cases, Hex, clone_fresh_cases, Hensure.
Qed.

Lemma cloneRepo_filesystem_failure_propagates_witness :
  cloneRepo readonly_env sample_url corrupt_world =
    (Throw (lit "EROFS: read-only file system"), corrupt_world,
     [EvGetRemotes sample_dir; EvRemove sample_dir]) /\
  cloneRepo readonly_env sample_url empty_world =
    (Throw (lit "EROFS: read-only file system"), empty_world,
     [EvEnsureDir sample_dir]).
Proof.
  destruct (cloneRepo_filesystem_failure_propagates readonly_env sample_url
              corrupt_world (lit "EROFS: read-only file system")) as [Hstale _].
  destruct (cloneRepo_filesystem_failure_propagates readonly_env sample_url
              empty_world (lit "EROFS: read-only file system")) as [_ Hensure].
  split.
  - change sample_dir with (tempDir readonly_env sample_url).
    apply (Hstale NOT_A_REPOSITORY); vm_compute; reflexivity.
  - change sample_dir with (tempDir readonly_env sample_url).
    apply Hensure; vm_compute; reflexivity.
Defined.

(** X3: when the clone fails and the [fs.remove] of the [catch] block
    throws as well, that second error is the one thrown: the cause of
    the failed clone is lost, and the half-made directory stays. *)
Theorem cloneRepo_cleanup_failure_masks_cause (e : env) (repoUrl : jsstring)
    (w : node) (cause failure : jsstring) (leftover : list dirent) :
  exists_at w (tempDir e repoUrl) = false ->
  fault e EnsureDir = None ->
  mkdirp (path_segs (tempDir e repoUrl)) w <> None ->
  remote_repo e repoUrl = FetchFailed cause leftover ->
  fault e RemoveFailedClone = Some failure ->
  exists w1,
    cloneRepo e repoUrl w =
      (Throw failure, w1,
       [EvEnsureDir (tempDir e repoUrl); EvClone repoUrl (tempDir e repoUrl);
        EvRemove (tempDir e repoUrl)]) /\
    walk (path_segs (tempDir e repoUrl)) w1 =
      Some (Dir (Throw NOT_A_REPOSITORY) leftover).
Proof.
  intros Habsent Hensure Hmk Hremote Hremove.
  rewrite cloneRepo_unfold. unfold bind. rewrite reuse_cases, Habsent.
  rewrite clone_fresh_cases, Hensure.
  destruct (mkdirp (path_segs (tempDir e repoUrl)) w) as [w'|] eqn:Hw'; [|congruence].
  destruct (walk_mkdirp _ _ Hw') as (x & Hx & [[Hold Hdir]|[_ ->]]).
  { exfalso. exact (exists_at_false_walk _ _ Habsent Hold Hdir). }
  rewrite Hx. unfold empty_dir. rewrite Hremote.
  unfold failed_clone. rewrite Hremove. eexists. split; [reflexivity|].
  eapply walk_put_at, Hx.
Qed.

Lemma cloneRepo_cleanup_failure_masks_cause_witness :
  exists w1,
    cloneRepo stuck_cleanup_env sample_url empty_world =
      (Throw (lit "EBUSY: resource busy or locked"), w1,
       [EvEnsureDir sample_dir; EvClone sample_url sample_dir; EvRemove sample_dir]) /\
    walk (path_segs sample_dir) w1 =
      Some (Dir (Throw NOT_A_REPOSITORY) [(lit "half", File (Ok []))]).
Proof.
  change sample_dir with (tempDir stuck_cleanup_env sample_url).
  eapply (@cloneRepo_cleanup_failure_masks_cause stuck_cleanup_env sample_url empty_world
            (lit "fatal: unable to access the remote"));
    try (vm_compute; reflexivity).
  vm_compute. discriminate.
Defined.

(** X4: the path a successful [cloneRepo] returns is the cache directory
    of the URL, and it names a directory in which git lists the remotes.
    Either nothing was cloned: then the file system is as it was and the
    first remote fetches from the URL; or one clone ran: then the
    directory holds what that clone wrote, with the remotes git
    recorded. *)
Theorem cloneRepo_returns_working_copy (e : env) (repoUrl : jsstring)
    (w w1 : node) (p : jsstring) (log : list event) :
  cloneRepo e repoUrl w = (Ok p, w1, log) ->
  p = tempDir e repoUrl /\
  exists_at w1 p = true /\
  exists remotes es,
    walk (path_segs p) w1 = Some (Dir (Ok remotes) es) /\
    remotes_at w1 p = Ok remotes /\
    ((fetches log = 0 /\ w1 = w /\ first_remote_is remotes repoUrl = true) \/
     (fetches log = 1 /\ remote_repo e repoUrl = Fetched remotes es)).
Proof.
  intros Hrun. apply cloneRepo_ok_inv in Hrun. destruct Hrun as [-> Hcase].
  split; [reflexivity|].
  assert (Hgoal : exists remotes es,
             walk (path_segs (tempDir e repoUrl)) w1 = Some (Dir (Ok remotes) es) /\
             ((fetches log = 0 /\ w1 = w /\ first_remote_is remotes repoUrl = true) \/
              (fetches log = 1 /\ remote_repo e repoUrl = Fetched remotes es))).
  { destruct Hcase as [(-> & -> & r & rs & es & Hw & Hr)
                      |(w' & git & remotes & entries & before & Hw & Hremote & -> & -> & Hb)].
    - exists (r :: rs), es. split; [exact Hw|]. left.
      split; [reflexivity|]. split; [reflexivity|].
      unfold first_remote_is. apply jsstring_eqb_eq. exact Hr.
    - exists remotes, entries. split; [eapply walk_put_at, Hw|]. right.
      split; [|exact Hremote]. rewrite fetches_app, Hb. reflexivity. }
  destruct Hgoal as (remotes & es & Hw & Hcases).
  split; [unfold exists_at; now rewrite Hw|].
  exists remotes, es. split; [exact Hw|]. split; [|exact Hcases].
  unfold remotes_at. now rewrite Hw.
Qed.

Lemma cloneRepo_returns_working_copy_witness :
  exists w1 es,
    exists_at w1 (lit "/tmp/github_tools_be453644c5dd") = true /\
    walk (path_segs (lit "/tmp/github_tools_be453644c5dd")) w1 =
      Some (Dir (Ok [mkRemote (lit "origin") (lit "/home/user/scratch/origin_repo")
                              (lit "/home/user/scratch/origin_repo")]) es).
Proof.
  pose (run := cloneRepo relative_path_env relative_url empty_world).
  assert (Hrun : cloneRepo relative_path_env relative_url empty_world =
                 (Ok (lit "/tmp/github_tools_be453644c5dd"), snd (fst run), snd run))
    by (vm_compute; reflexivity).
  destruct (cloneRepo_returns_working_copy _ _ _ Hrun)
    as (_ & Hex & remotes & es & Hw & _ & [(Hzero & _)|(_ & Hremote)]).
  - exfalso. vm_compute in Hzero. discriminate.
  - exists (snd (fst run)), es. split; [exact Hex|].
    rewrite Hw. vm_compute in Hremote. injection Hremote as <- _. reflexivity.
Defined.

(** ** [cloneRepo]: what a run issues, and what it leaves alone *)

Lemma failed_clone_shape (e : env) (repoUrl dir message : jsstring) (w : node) :
  exists r w1,
    failed_clone e repoUrl dir message w =
      (r, w1, [EvEnsureDir dir; EvClone repoUrl dir; EvRemove dir]) /\
    (forall p, r <> Ok p) /\
    (w1 = w \/ w1 = remove_at (path_segs dir) w).
Proof.
  unfold failed_clone. destruct (fault e RemoveFailedClone);
    eexists; eexists; (split; [reflexivity|split; [discriminate|auto]]).
Qed.

(** X5: every command of a run names the cache directory of the URL, a
    run issues at most one [git clone], and a run that succeeds without
    cloning leaves the file system as it found it. *)
Theorem cloneRepo_commands (e : env) (repoUrl : jsstring) (w w1 : node)
    (r : result jsstring) (log : list event) :
  cloneRepo e repoUrl w = (r, w1, log) ->
  Forall (fun ev => event_dir ev = tempDir e repoUrl) log /\
  fetches log <= 1 /\
  (forall p, r = Ok p -> fetches log = 0 -> w1 = w).
Proof.
  rewrite cloneRepo_unfold. unfold bind. rewrite reuse_cases.
  set (dir := tempDir e repoUrl).
  assert (Hfresh : forall w0 before,
             Forall (fun ev => event_dir ev = dir) before ->
             fetches before = 0 ->
             (let '(r, w2, l2) := clone_fresh e repoUrl dir w0 in
              (r, w2, before ++ l2)) = (r, w1, log) ->
             Forall (fun ev => event_dir ev = dir) log /\
             fetches log <= 1 /\
             (forall p, r = Ok p -> fetches log = 0 -> w1 = w)).
  { intros w0 before Hb Hb0. rewrite clone_fresh_cases.
    assert (Hdone : forall r0 w2 l2,
               Forall (fun ev => event_dir ev = dir) l2 ->
               fetches l2 <= 1 ->
               (forall p, r0 = Ok p -> fetches l2 = 1) ->
               (r0, w2, before ++ l2) = (r, w1, log) ->
               Forall (fun ev => event_dir ev = dir) log /\
               fetches log <= 1 /\
               (forall p, r = Ok p -> fetches log = 0 -> w1 = w)).
    { intros r0 w2 l2 Hl2 Hle Hok [= <- <- <-].
      split; [now apply Forall_app|]. rewrite fetches_app, Hb0.
      split; [exact Hle|]. intros p Hp H0. specialize (Hok _ Hp). simpl in H0. lia. }
    assert (Hfailed : forall message w2,
               (let '(r0, w3, l3) := failed_clone e repoUrl dir message w2 in
                (r0, w3, before ++ l3)) = (r, w1, log) ->
               Forall (fun ev => event_dir ev = dir) log /\
               fetches log <= 1 /\
               (forall p, r = Ok p -> fetches log = 0 -> w1 = w)).
    { intros message w2.
      destruct (failed_clone_shape e repoUrl dir message w2) as (r0 & w3 & -> & Hno & _).
      apply Hdone.
      - repeat constructor.
      - unfold fetches. simpl. lia.
      - intros p Hp. now apply Hno in Hp. }
    destruct (fault e EnsureDir).
    { apply Hdone; [repeat constructor|unfold fetches; simpl; lia|discriminate]. }
    destruct (mkdirp (path_segs dir) w0) as [w'|].
    2:{ apply Hdone; [repeat constructor|unfold fetches; simpl; lia|discriminate]. }
    destruct (walk (path_segs dir) w') as [[data|git [|kv es]|err|err]|];
      try apply Hfailed.
    destruct (remote_repo e repoUrl); [|apply Hfailed].
    apply Hdone; [repeat constructor|unfold fetches; simpl; lia|reflexivity]. }
  destruct (exists_at w dir).
  - destruct (remotes_at w dir) as [remotes|message].
    + destruct (first_remote_is remotes repoUrl).
      * unfold ret. intros [= <- <- <-].
        split; [repeat constructor|]. split; [unfold fetches; simpl; lia|reflexivity].
      * apply Hfresh; [repeat constructor|reflexivity].
    + destruct (fault e RemoveStale).
      * intros [= <- <- <-].
        split; [repeat constructor|]. split; [unfold fetches; simpl; lia|discriminate].
      * apply Hfresh; [repeat constructor|reflexivity].
  - apply (Hfresh w []); [constructor|reflexivity].
Qed.

Lemma cloneRepo_commands_witness :
  exists log,
    cloneRepo sample_env sample_url corrupt_world =
      (Ok sample_dir, snd (fst (cloneRepo sample_env sample_url corrupt_world)), log) /\
    Forall (fun ev => event_dir ev = sample_dir) log /\
    fetches log <= 1.
Proof.
  pose (run := cloneRepo sample_env sample_url corrupt_world).
  assert (Hrun : cloneRepo sample_env sample_url corrupt_world =
                 (Ok sample_dir, snd (fst run), snd run))
    by (vm_compute; reflexivity).
  destruct (cloneRepo_commands _ _ _ Hrun) as (Hall & Hle & _).
  exists (snd run). split; [exact Hrun|]. split; [exact Hall|exact Hle].
Defined.









Lemma walk_empty_dir_cons (s : jsstring) (rest : list jsstring) :
  walk (s :: rest) empty_dir = None.
Proof. reflexivity. Qed.




(** ** The handlers and the dispatcher *)

(** A [try] whose [catch] block only returns a value never throws. *)
Lemma try_catch_ret_resolves (A : Type) (m : M A) (h : jsstring -> A) (w : node) :
  exists a w1 log, try_catch m (fun message => ret (h message)) w = (Ok a, w1, log).
Proof.
  unfold try_catch, ret. destruct (m w) as [[[a|message] w1] log]; eauto.
Qed.

(** X7: neither handler ever throws: whatever the repository, the
    network and the file system do, each resolves to a response, and
    the response carries [isError] exactly when its text is the message
    of the [catch] block. *)
Theorem handlers_always_resolve (e : env) (repo_url : jsstring)
    (file_paths : list jsstring) (w : node) :
  (exists resp w1 log,
     handleGitDirectoryStructure e repo_url w = (Ok resp, w1, log) /\
     (isError resp = true -> exists message, text resp = lit "Error: " ++ message)) /\
  (exists resp w1 log,
     handleGitReadImportantFiles e repo_url file_paths w = (Ok resp, w1, log) /\
     (isError resp = true ->
      exists message,
        text resp =
        JSON_stringify [(lit "error", lit "Failed to process repository: " ++ message)])).
Proof.
  split.
  - unfold handleGitDirectoryStructure, try_catch, bind, getDirectoryTree_at, ret.
    destruct (cloneRepo e repo_url w) as [[[repoPath|message] w1] log].
    + destruct (walk (path_segs repoPath) w1) as [n|].
      * destruct (getDirectoryTree n []) as [tree|message];
          do 3 eexists; (split; [reflexivity|]); simpl; [discriminate|eauto].
      * do 3 eexists. split; [reflexivity|]. simpl. eauto.
    + do 3 eexists. split; [reflexivity|]. simpl. eauto.
  - unfold handleGitReadImportantFiles, try_catch, bind, ret.
    destruct (cloneRepo e repo_url w) as [[[repoPath|message] w1] log];
      do 3 eexists; (split; [reflexivity|]); simpl; [discriminate|eauto].
Qed.

(** Where a successful [cloneRepo] leaves a directory. *)
Lemma cloneRepo_ok_dir (e : env) (repoUrl : jsstring) (w w1 : node)
    (p : jsstring) (log : list event) :
  cloneRepo e repoUrl w = (Ok p, w1, log) ->
  p = tempDir e repoUrl /\
  exists git es, walk (path_segs p) w1 = Some (Dir git es).
Proof.
  intros Hrun. apply cloneRepo_ok_inv in Hrun. destruct Hrun as [-> Hcase].
  split; [reflexivity|].
  destruct Hcase as [(-> & _ & r & rs & es & Hw & _)
                    |(w' & git & remotes & entries & before & Hw & _ & -> & _ & _)].
  - eauto.
  - do 2 eexists. unfold working_copy. eapply walk_put_at, Hw.
Qed.

(** X8: once the repository is acquired, [handleGitDirectoryStructure]
    renders the cache directory; the rendering is the text of the
    response, and a failure while rendering becomes a response with
    [isError] whose text is [Error: ] and the message.  The file system
    and the commands are those of [cloneRepo]. *)
Theorem handleGitDirectoryStructure_after_acquisition (e : env)
    (repo_url : jsstring) (w w1 : node) (repoPath : jsstring) (log : list event) :
  cloneRepo e repo_url w = (Ok repoPath, w1, log) ->
  exists git es,
    walk (path_segs repoPath) w1 = Some (Dir git es) /\
    handleGitDirectoryStructure e repo_url w =
      (Ok (match getDirectoryTree (Dir git es) [] with
           | Ok tree => mkResponse tree false
           | Throw message => mkResponse (lit "Error: " ++ message) true
           end), w1, log).
Proof.
  intros Hrun.
  destruct (cloneRepo_ok_dir _ _ _ Hrun) as (_ & git & es & Hw).
  exists git, es. split; [exact Hw|].
  unfold handleGitDirectoryStructure, try_catch, bind, getDirectoryTree_at, ret.
  rewrite Hrun, Hw.
  destruct (getDirectoryTree _ []); now rewrite !app_nil_r.
Qed.

Lemma handleGitDirectoryStructure_after_acquisition_witness :
  handleGitDirectoryStructure sample_env sample_url sample_world =
    (Ok (mkResponse
           (MID_BRANCH ++ lit "__proto__" ++ NEWLINE ++
            MID_BRANCH ++ lit "a.txt" ++ NEWLINE ++
            LAST_BRANCH ++ lit "locked.txt" ++ NEWLINE) false),
     sample_world, [EvGetRemotes sample_dir]).
Proof.
  assert (Hrun : cloneRepo sample_env sample_url sample_world =
                 (Ok sample_dir, sample_world, [EvGetRemotes sample_dir]))
    by (vm_compute; reflexivity).
  destruct (handleGitDirectoryStructure_after_acquisition _ _ _ Hrun)
    as (git & es & Hw & ->).
  assert (Hn : Some (Dir git es) = walk (path_segs sample_dir) sample_world)
    by (now rewrite Hw).
  vm_compute in Hn. injection Hn as -> ->.
  vm_compute. reflexivity.
Defined.

Lemma settle_never_rejects (run : result response * node * list event)
    (resp : response) (w1 : node) (log : list event) :
  run = (Ok resp, w1, log) -> settle run = (Resolved resp, w1, log).
Proof. now intros ->. Qed.

(** X9: the dispatcher settles a call to either listed tool with a
    response, and rejects every other name with [MethodNotFound] and
    [Unknown tool: ] followed by the name, issuing no command and
    leaving the file system alone; the names it accepts are exactly the
    names of the tools it lists. *)
Theorem callTool_dispatch (e : env) (req : request) (w : node) :
  (In (params_name req) (map tool_name tools) ->
   exists resp w1 log, callTool e req w = (Resolved resp, w1, log)) /\
  (~ In (params_name req) (map tool_name tools) ->
   callTool e req w =
     (RejectedMcp MethodNotFound (lit "Unknown tool: " ++ params_name req), w, [])).
Proof.
  unfold callTool. split.
  - intros Hin.
    destruct (jsstring_eqb (params_name req) (lit "git_directory_structure")) eqn:E1.
    { unfold handleGitDirectoryStructure.
      match goal with
      | |- context [try_catch ?m _ w] =>
          destruct (try_catch_ret_resolves m
                      (fun message => mkResponse (lit "Error: " ++ message) true) w)
            as (r1 & w1 & l1 & H1)
      end.
      cbv beta in H1. rewrite H1. simpl. eauto. }
    destruct (jsstring_eqb (params_name req) (lit "git_read_important_files")) eqn:E2.
    { unfold handleGitReadImportantFiles.
      match goal with
      | |- context [try_catch ?m _ w] =>
          destruct (try_catch_ret_resolves m
                      (fun message =>
                         mkResponse
                           (JSON_stringify
                              [(lit "error",
                                lit "Failed to process repository: " ++ message)])
                           true) w)
            as (r2 & w2 & l2 & H2)
      end.
      cbv beta in H2. rewrite H2. simpl. eauto. }
    apply jsstring_eqb_neq in E1, E2.
    simpl in Hin. destruct Hin as [H|[H|[]]]; congruence.
  - intros Hnot.
    destruct (jsstring_eqb (params_name req) (lit "git_directory_structure")) eqn:E1.
    { apply jsstring_eqb_eq in E1. exfalso. apply Hnot. simpl. auto. }
    destruct (jsstring_eqb (params_name req) (lit "git_read_important_files")) eqn:E2.
    { apply jsstring_eqb_eq in E2. exfalso. apply Hnot. simpl. auto. }
    reflexivity.
Qed.

Lemma callTool_dispatch_witness :
  (exists resp w1 log,
     callTool sample_env
       (mkRequest (lit "git_read_important_files") sample_url [lit "a.txt"])
       sample_world = (Resolved resp, w1, log)) /\
  callTool sample_env (mkRequest (lit "git_pull") sample_url []) empty_world =
    (RejectedMcp MethodNotFound (lit "Unknown tool: git_pull"), empty_world, []).
Proof.
  split.
  - apply callTool_dispatch. vm_compute. auto.
  - apply (callTool_dispatch sample_env (mkRequest (lit "git_pull") sample_url [])).
    vm_compute. intuition discriminate.
Defined.

(** ** The batch reader, where it works *)

(** X10: every requested path other than [__proto__] has exactly one entry
    in the result: the content of the file when the joined path exists
    and can be read, [Error: File not found] when it does not exist, and
    [Error reading file: ] followed by the cause otherwise. *)
Theorem readAll_requested_entry (w : node) (repoPath : jsstring)
    (file_paths : list jsstring) (p : jsstring) :
  In p file_paths -> p <> PROTO ->
  entries_for (readAll w repoPath file_paths) p = 1 /\
  obj_get (readAll w repoPath file_paths) p =
    Some (if exists_at w (path_join [repoPath; p])
          then match readFile_at w (path_join [repoPath; p]) with
               | Ok content => content
               | Throw cause => lit "Error reading file: " ++ cause
               end
          else lit "Error: File not found").
Proof.
  intros Hin Hproto. destruct (readAll_entry w repoPath _ Hin Hproto) as [Hget Hone].
  split; [exact Hone|exact Hget].
Qed.

Lemma readAll_requested_entry_witness :
  obj_get (readAll sample_world sample_dir
             [lit "a.txt"; lit "missing.txt"; lit "locked.txt"; lit "a.txt"])
          (lit "locked.txt") =
    Some (lit "Error reading file: EACCES: permission denied, open").
Proof.
  destruct (@readAll_requested_entry sample_world sample_dir
              [lit "a.txt"; lit "missing.txt"; lit "locked.txt"; lit "a.txt"]
              (lit "locked.txt")) as [_ Hget].
  - vm_compute. auto.
  - vm_compute. discriminate.
  - rewrite Hget. vm_compute. reflexivity.
Defined.

(** X11: the result has no entry for a path that was not requested, and
    no key twice, however often a path is requested. *)
Theorem readAll_keys (w : node) (repoPath : jsstring) (file_paths : list jsstring) :
  NoDup (keys (readAll w repoPath file_paths)) /\
  (forall k, In k (keys (readAll w repoPath file_paths)) ->
             In k file_paths /\ k <> PROTO).
Proof.
  split.
  - apply read_loop_NoDup. constructor.
  - intros k Hk. apply obj_get_In_keys in Hk. split.
    + now apply readAll_only_requested in Hk.
    + intros ->. apply Hk. apply readAll_proto_absent.
Qed.

(** ** The name of the cache directory *)

Lemma app_same_length_tail (A : Type) (l1 l2 a b : list A) :
  l1 ++ a = l2 ++ b -> length a = length b -> l1 = l2 /\ a = b.
Proof.
  revert l2. induction l1 as [|x l1 IH]; intros [|y l2] Heq Hlen; simpl in *.
  - auto.
  - subst a. simpl in Hlen. rewrite length_app in Hlen. lia.
  - subst b. simpl in Hlen. rewrite length_app in Hlen. lia.
  - injection Heq as -> Heq. destruct (IH _ Heq Hlen) as [-> ->]. auto.
Qed.

Lemma cache_name_length (repoUrl : jsstring) : length (cache_name repoUrl) = 25.
Proof.
  unfold cache_name. rewrite length_app, repoHash_length. reflexivity.
Qed.

(** X13: two URLs get the same cache directory exactly when the first 12
    hexadecimal digits of their SHA-256 digests agree (for one and the
    same temporary directory); URLs whose truncated digests differ never
    share one. *)
Theorem tempDir_shared_iff_hash (e : env) (url1 url2 : jsstring) :
  tempDir e url1 = tempDir e url2 <-> repoHash url1 = repoHash url2.
Proof.
  split.
  - intros Heq.
    destruct (tempDir_last_component e url1) as (p1 & H1 & _).
    destruct (tempDir_last_component e url2) as (p2 & H2 & _).
    rewrite H1, H2 in Heq.
    apply app_same_length_tail in Heq; [|now rewrite !cache_name_length].
    destruct Heq as [_ Hname]. unfold cache_name in Hname.
    now apply app_inv_head in Hname.
  - intros Heq. unfold tempDir. now rewrite Heq.
Qed.

(** ** [path.normalize] is idempotent *)

Lemma split_join_sep (segs : list jsstring) :
  segs <> [] -> Forall (fun seg => ~ In SLASH seg) segs ->
  split_sep (join_sep segs) = segs.
Proof.
  intros Hne Hall. induction segs as [|seg segs IH]; [congruence|].
  inversion Hall as [|? ? Hseg Hall']; subst.
  destruct segs as [|seg' segs].
  - simpl. now apply split_sep_no_slash.
  - change (join_sep (seg :: seg' :: segs)) with (seg ++ SLASH :: join_sep (seg' :: segs)).
    rewrite split_sep_app, (split_sep_no_slash _ Hseg), IH by (discriminate || assumption).
    reflexivity.
Qed.

Lemma canonical_stack_nil (allow : bool) : canonical_stack allow [].
Proof. exists [], 0. simpl. auto. Qed.

Lemma repeat_snoc (A : Type) (x : A) (k : nat) : repeat x k ++ [x] = x :: repeat x k.
Proof. induction k; simpl; [reflexivity|]. now rewrite IHk. Qed.

Lemma norm_step_canonical (allow : bool) (stack : list jsstring) (seg : jsstring) :
  ~ In SLASH seg -> canonical_stack allow stack ->
  canonical_stack allow (norm_step allow stack seg).
Proof.
  intros Hno (tops & k & -> & Htops & Hk). unfold norm_step.
  destruct (jsstring_eqb seg []) eqn:E0; cbn [orb]; [now exists tops, k|].
  destruct (jsstring_eqb seg DOT) eqn:E1; [now exists tops, k|].
  apply jsstring_eqb_neq in E0, E1.
  destruct (jsstring_eqb seg DOTDOT) eqn:E2.
  - apply jsstring_eqb_eq in E2. subst seg.
    destruct tops as [|top tops]; cbn [app].
    + destruct k as [|k]; cbn [repeat].
      * destruct allow.
        -- exists [], 1. repeat split; auto. discriminate.
        -- exists [], 0. repeat split; auto.
      * rewrite jsstring_eqb_refl. destruct allow.
        -- exists [], (S (S k)). repeat split; auto. discriminate.
        -- exists [], (S k). repeat split; auto.
    + inversion Htops as [|? ? [Hkept Hnd] Htops']; subst.
      apply jsstring_eqb_neq in Hnd. rewrite Hnd.
      exists tops, k. auto.
  - apply jsstring_eqb_neq in E2.
    exists (seg :: tops), k. split; [reflexivity|]. split; [|exact Hk].
    constructor; [|exact Htops]. repeat split; auto.
Qed.

Lemma fold_norm_step_canonical (allow : bool) (segs : list jsstring) :
  Forall (fun seg => ~ In SLASH seg) segs ->
  forall stack, canonical_stack allow stack ->
    canonical_stack allow (fold_left (norm_step allow) segs stack).
Proof.
  induction 1 as [|seg segs Hseg _ IH]; intros stack Hst; simpl; auto.
  apply IH. now apply norm_step_canonical.
Qed.

Lemma fold_norm_step_dotdots (k : nat) :
  forall j, fold_left (norm_step true) (repeat DOTDOT k) (repeat DOTDOT j) =
            repeat DOTDOT (k + j).
Proof.
  induction k as [|k IH]; intros j; [reflexivity|].
  cbn [repeat fold_left].
  replace (norm_step true (repeat DOTDOT j) DOTDOT) with (repeat DOTDOT (S j))
    by (destruct j; reflexivity).
  rewrite IH. now replace (k + S j) with (S k + j) by lia.
Qed.

Lemma fold_norm_step_tops (allow : bool) (tops : list jsstring) :
  Forall (fun seg => kept_segment seg /\ seg <> DOTDOT) tops ->
  forall stack, fold_left (norm_step allow) (rev tops) stack = tops ++ stack.
Proof.
  induction 1 as [|top tops [(H0 & H1 & _) H2] _ IH]; intros stack; simpl; auto.
  rewrite fold_left_app, IH. simpl.
  now rewrite plain_step by (repeat split; assumption).
Qed.

(** Feeding the segments that were kept to [normalizeString] again
    keeps them all. *)
Lemma fold_norm_step_fixed (allow : bool) (stack : list jsstring) :
  canonical_stack allow stack ->
  fold_left (norm_step allow) (rev stack) [] = stack.
Proof.
  intros (tops & k & -> & Htops & Hk).
  rewrite rev_app_distr, rev_repeat, fold_left_app.
  assert (Hdots : fold_left (norm_step allow) (repeat DOTDOT k) [] = repeat DOTDOT k).
  { destruct allow.
    - change (@nil jsstring) with (repeat DOTDOT 0) at 1.
      rewrite fold_norm_step_dotdots. now replace (k + 0) with k by lia.
    - rewrite (Hk eq_refl). reflexivity. }
  rewrite Hdots. now apply fold_norm_step_tops.
Qed.

Lemma canonical_stack_segments (allow : bool) (stack : list jsstring) :
  canonical_stack allow stack ->
  Forall (fun seg => seg <> [] /\ ~ In SLASH seg) stack.
Proof.
  intros (tops & k & -> & Htops & _). apply Forall_app. split.
  - eapply Forall_impl; [|exact Htops]. intros seg [(H0 & _ & H2) _]. auto.
  - apply Forall_forall. intros seg Hseg. apply repeat_spec in Hseg. subst.
    split; [discriminate|]. vm_compute. intuition discriminate.
Qed.

Lemma norm_segs_canonical (allow : bool) (p : jsstring) :
  canonical_stack allow (rev (norm_segs allow p)).
Proof.
  unfold norm_segs. rewrite rev_involutive.
  apply fold_norm_step_canonical; [apply split_sep_segments|apply canonical_stack_nil].
Qed.

Lemma norm_segs_segments (allow : bool) (p : jsstring) :
  Forall (fun seg => seg <> [] /\ ~ In SLASH seg) (norm_segs allow p).
Proof.
  rewrite <- (rev_involutive (norm_segs allow p)). apply Forall_rev.
  apply canonical_stack_segments with (allow := allow), norm_segs_canonical.
Qed.

Lemma join_sep_head (segs : list jsstring) :
  segs <> [] -> Forall (fun seg => seg <> [] /\ ~ In SLASH seg) segs ->
  exists c rest, join_sep segs = c :: rest /\ c <> SLASH.
Proof.
  intros Hne Hall. destruct segs as [|seg segs]; [congruence|].
  inversion Hall as [|? ? [H0 Hno] _]; subst.
  destruct seg as [|c seg]; [congruence|].
  exists c. destruct segs; simpl; eexists; (split; [reflexivity|]);
    intros ->; apply Hno; now left.
Qed.

Lemma norm_segs_of_normal (allow abs tr : bool) (segs : list jsstring) :
  segs <> [] -> canonical_stack allow (rev segs) ->
  norm_segs allow
    ((if abs then [SLASH] else []) ++ join_sep segs ++ (if tr then [SLASH] else [])) =
  segs.
Proof.
  intros Hne Hcan.
  assert (Hseg : Forall (fun seg => seg <> [] /\ ~ In SLASH seg) segs).
  { rewrite <- (rev_involutive segs). apply Forall_rev.
    now apply canonical_stack_segments with (allow := allow). }
  assert (Hno : Forall (fun seg => ~ In SLASH seg) segs)
    by (eapply Forall_impl; [|exact Hseg]; intros ? []; assumption).
  assert (Hfold : forall extra,
             fold_left (norm_step allow) extra (rev segs) = rev segs ->
             rev (fold_left (norm_step allow) (segs ++ extra) []) = segs).
  { intros extra Hextra. rewrite fold_left_app.
    rewrite <- (rev_involutive segs) at 1.
    rewrite (fold_norm_step_fixed Hcan), Hextra. apply rev_involutive. }
  unfold norm_segs.
  assert (Hsplit : split_sep (join_sep segs ++ (if tr then [SLASH] else [])) =
                   segs ++ (if tr then [[]] else [])).
  { destruct tr.
    - rewrite split_sep_app, split_join_sep by assumption. reflexivity.
    - rewrite !app_nil_r. now apply split_join_sep. }
  destruct abs.
  - change ([SLASH] ++ join_sep segs ++ (if tr then [SLASH] else []))
      with ([] ++ SLASH :: (join_sep segs ++ (if tr then [SLASH] else []))).
    rewrite split_sep_app, Hsplit. simpl.
    apply Hfold. destruct tr; reflexivity.
  - simpl. rewrite Hsplit. apply Hfold. destruct tr; reflexivity.
Qed.

(** [path.normalize] leaves a normalized path as it is. *)
Lemma path_normalize_idempotent (p : jsstring) :
  path_normalize (path_normalize p) = path_normalize p.
Proof.
  destruct p as [|c p]; [reflexivity|].
  rewrite path_normalize_cons at 2. rewrite path_normalize_cons at 1. cbv zeta.
  set (q := c :: p).
  set (abs := is_absolute q). set (tr := trailing_sep q).
  set (segs := norm_segs (negb abs) q).
  pose proof (norm_segs_canonical (negb abs) q) as Hcan. fold segs in Hcan.
  pose proof (norm_segs_segments (negb abs) q) as Hseg. fold segs in Hseg.
  destruct (join_sep segs) as [|d j] eqn:Hjoin.
  { destruct abs; [reflexivity|]. destruct tr; reflexivity. }
  assert (Hne : segs <> []) by (intros E; rewrite E in Hjoin; discriminate).
  destruct (join_sep_head Hne Hseg) as (d' & j' & Hhead & Hd).
  rewrite Hjoin in Hhead. injection Hhead as <- <-.
  pose proof (join_sep_trailing Hseg) as Htrail. rewrite Hjoin in Htrail.
  set (out := if abs
              then SLASH :: (if tr then (d :: j) ++ [SLASH] else d :: j)
              else if tr then (d :: j) ++ [SLASH] else d :: j).
  assert (Hout : out = (if abs then [SLASH] else []) ++ join_sep segs ++
                       (if tr then [SLASH] else [])).
  { unfold out. rewrite Hjoin. destruct abs, tr; simpl; now rewrite ?app_nil_r. }
  assert (Habs : is_absolute out = abs).
  { unfold out. destruct abs; [reflexivity|].
    destruct tr; simpl; now apply N.eqb_neq. }
  assert (Htr : trailing_sep out = tr).
  { unfold out. destruct abs, tr.
    - change (SLASH :: (d :: j) ++ [SLASH]) with ((SLASH :: d :: j) ++ [SLASH]).
      apply trailing_sep_snoc.
    - change (SLASH :: d :: j) with ([SLASH] ++ d :: j).
      now rewrite trailing_sep_app.
    - apply trailing_sep_snoc.
    - exact Htrail. }
  assert (Hsegs : norm_segs (negb abs) out = segs).
  { rewrite Hout. now apply norm_segs_of_normal. }
  assert (Hcons : exists x y, out = x :: y).
  { unfold out. destruct abs, tr; simpl; eauto. }
  destruct Hcons as (x & y & Hxy).
  change (path_normalize out = out).
  rewrite Hxy, path_normalize_cons, <- Hxy. cbv zeta.
  rewrite Habs, Htr, Hsegs, Hjoin. reflexivity.
Qed.

Lemma path_join_normalized (args : list jsstring) :
  path_normalize (path_join args) = path_join args.
Proof.
  unfold path_join. destruct (filter _ args); [reflexivity|].
  apply path_normalize_idempotent.
Qed.

Lemma trailing_sep_app_nonempty (a b : jsstring) :
  b <> [] -> trailing_sep (a ++ b) = trailing_sep b.
Proof. destruct b as [|c b]; [congruence|]. intros _. apply trailing_sep_app. Qed.

(** The cache directory is a normalized path without a trailing
    separator. *)
Lemma tempDir_normal (e : env) (repoUrl : jsstring) :
  path_normalize (tempDir e repoUrl) = tempDir e repoUrl /\
  trailing_sep (tempDir e repoUrl) = false /\
  tempDir e repoUrl <> DOT.
Proof.
  split; [apply path_join_normalized|].
  destruct (tempDir_last_component e repoUrl) as (parent & -> & _).
  pose proof (cache_name_plain repoUrl) as (Hne & _ & _).
  split.
  - rewrite trailing_sep_app_nonempty by assumption.
    apply trailing_sep_no_slash, cache_name_no_slash.
  - intros H. apply (f_equal (@length _)) in H.
    rewrite length_app, cache_name_length in H. simpl in H. lia.
Qed.

(** X14: for the path [cloneRepo] returns, a requested path without [..]
    segments is resolved to that directory or to a path below it, and a
    leading separator of the requested path makes no difference. *)
Theorem read_stays_below_repository (e : env) (repo_url : jsstring)
    (w w1 : node) (repoPath : jsstring) (log : list event) (p : jsstring) :
  cloneRepo e repo_url w = (Ok repoPath, w1, log) ->
  (~ In DOTDOT (split_sep p) -> beneath repoPath (path_join [repoPath; p])) /\
  (p <> [] -> file_result w1 repoPath (SLASH :: p) = file_result w1 repoPath p).
Proof.
  intros Hrun.
  destruct (cloneRepo_ok_dir _ _ _ Hrun) as (-> & _).
  destruct (tempDir_normal e repo_url) as (Hnorm & Htrail & Hdot).
  assert (Hroot : tempDir e repo_url <> [])
    by (intros E; rewrite E in Hnorm; discriminate).
  split.
  - intros Hno. now apply path_join_beneath.
  - intros Hp. unfold file_result. now rewrite path_join_leading_sep.
Qed.

Lemma read_stays_below_repository_witness :
  beneath sample_dir (path_join [sample_dir; lit "src//lib/./x.js"]) /\
  file_result sample_world sample_dir (SLASH :: lit "a.txt") =
  file_result sample_world sample_dir (lit "a.txt").
Proof.
  assert (Hrun : cloneRepo sample_env sample_url sample_world =
                 (Ok sample_dir, sample_world, [EvGetRemotes sample_dir]))
    by (vm_compute; reflexivity).
  destruct (@read_stays_below_repository _ _ _ _ _ _ (lit "src//lib/./x.js") Hrun)
    as [Hbelow _].
  destruct (@read_stays_below_repository _ _ _ _ _ _ (lit "a.txt") Hrun)
    as [_ Hsame].
  split.
  - apply Hbelow. vm_compute. intuition discriminate.
  - apply Hsame. vm_compute. discriminate.
Defined.

(** ** [getDirectoryTree]: order, failures, connectors *)

Lemma sorted_perm_unique (l1 l2 : list jsstring) :
  StronglySorted js_le l1 -> StronglySorted js_le l2 -> Permutation l1 l2 ->
  l1 = l2.
Proof.
  revert l2. induction l1 as [|x l1 IH]; intros l2 H1 H2 Hperm.
  - apply Permutation_nil in Hperm. now subst.
  - destruct l2 as [|y l2].
    { symmetry in Hperm. now apply Permutation_nil in Hperm. }
    inversion H1 as [|? ? Hs1 Hall1]; subst.
    inversion H2 as [|? ? Hs2 Hall2]; subst.
    assert (Hxy : x = y).
    { assert (Hx : In x (y :: l2)) by (eapply Permutation_in; [exact Hperm|now left]).
      assert (Hy : In y (x :: l1))
        by (eapply Permutation_in; [symmetry; exact Hperm|now left]).
      destruct Hx as [->|Hx]; [reflexivity|].
      destruct Hy as [->|Hy]; [reflexivity|].
      rewrite Forall_forall in Hall1, Hall2.
      apply js_leb_antisym; [now apply Hall1|now apply Hall2]. }
    subst y. f_equal. apply IH; auto. now apply Permutation_cons_inv in Hperm.
Qed.

Lemma alist_get_not_in (name : jsstring) (es : list dirent) :
  ~ In name (map fst es) -> alist_get name es = None.
Proof.
  induction es as [|[k c] tl IH]; simpl; auto.
  intros Hno. destruct (jsstring_eqb k name) eqn:E.
  - apply jsstring_eqb_eq in E. tauto.
  - apply IH. tauto.
Qed.

Lemma alist_get_perm (name : jsstring) (es es' : list dirent) :
  Permutation es es' -> NoDup (map fst es) ->
  alist_get name es = alist_get name es'.
Proof.
  induction 1 as [|[k c] l l' Hperm IH|[k1 c1] [k2 c2] l|l1 l2 l3 H12 IH12 H23 IH23];
    intros Hnd.
  - reflexivity.
  - simpl in *. inversion Hnd; subst. now rewrite IH.
  - simpl in *. inversion Hnd as [|? ? Hnotin Hnd']; subst.
    destruct (jsstring_eqb k1 name) eqn:E1, (jsstring_eqb k2 name) eqn:E2; auto.
    apply jsstring_eqb_eq in E1, E2. subst. exfalso. apply Hnotin. now left.
  - rewrite IH12 by assumption. apply IH23.
    eapply Permutation_NoDup; [|exact Hnd]. now apply Permutation_map.
Qed.

(** X15: the rendering does not depend on the order in which [fs.readdir]
    lists the entries of a directory (nor on whether the directory is a
    repository): two listings of the same entries give the same text, or
    the same failure. *)
Theorem getDirectoryTree_listing_order (git git' : result (list remote))
    (es es' : list dirent) (prefix : jsstring) :
  Permutation es es' -> NoDup (map fst es) ->
  getDirectoryTree (Dir git es) prefix = getDirectoryTree (Dir git' es') prefix.
Proof.
  intros Hperm Hnd. rewrite !getDirectoryTree_Dir.
  assert (Hnames : Permutation (map fst es) (map fst es')) by now apply Permutation_map.
  assert (Hsort : sort (map fst es) = sort (map fst es')).
  { apply sorted_perm_unique; try apply sort_sorted.
    rewrite !sort_perm. exact Hnames. }
  rewrite Hsort. apply tree_loop_ext. intros name. unfold child_of.
  now rewrite (alist_get_perm name Hperm Hnd).
Qed.

Lemma getDirectoryTree_listing_order_witness :
  getDirectoryTree
    (Dir (Ok [])
       [(lit "b", File (Ok [])); (lit ".git", Sealed ENOENT); (lit "a", File (Ok []))])
    (lit "> ") =
  getDirectoryTree
    (Dir (Throw NOT_A_REPOSITORY)
       [(lit "a", File (Ok [])); (lit "b", File (Ok [])); (lit ".git", Sealed ENOENT)])
    (lit "> ").
Proof.
  apply getDirectoryTree_listing_order.
  - apply perm_trans with
      [(lit "b", File (Ok [])); (lit "a", File (Ok [])); (lit ".git", Sealed ENOENT)].
    + apply perm_skip, perm_swap.
    + apply perm_swap.
  - repeat constructor; simpl; intuition discriminate.
Defined.

Lemma tree_loop_aborts (es : list dirent) (prefix : jsstring) (len : nat)
    (name : jsstring) (c : node) :
  alist_get name es = Some c ->
  startsWith name GIT_PREFIX = false ->
  unrenderable c ->
  forall rest, In name rest ->
    forall i output, exists err,
      tree_loop (child_of es) prefix len i rest output = Throw err.
Proof.
  intros Hget Hvis Hbad.
  induction rest as [|entry rest IH]; intros Hin i output; [contradiction|].
  simpl.
  destruct (startsWith entry GIT_PREFIX) eqn:Hskip.
  { destruct Hin as [->|Hin]; [congruence|]. now apply IH. }
  unfold child_of at 1.
  destruct (alist_get entry es) as [c'|] eqn:Hget'; [|eauto].
  destruct (list_eq_dec N.eq_dec entry name) as [->|Hne].
  - rewrite Hget in Hget'. injection Hget' as Heq. subst c'.
    unfold unrenderable in Hbad.
    destruct (stat_isDirectory c) as [[|]|err]; [|contradiction|eauto].
    match goal with
    | |- context [getDirectoryTree c ?p] => destruct (Hbad p) as [err Herr]; rewrite Herr
    end.
    eauto.
  - assert (Hrest : In name rest) by (destruct Hin; [congruence|assumption]).
    destruct (stat_isDirectory c') as [[|]|err]; [| |eauto].
    + destruct (getDirectoryTree c' _); [|eauto]. now apply IH.
    + now apply IH.
Qed.

(** X16: a listed entry that cannot be examined, or a listed directory
    whose own rendering fails, makes the whole rendering fail: no partial
    text is returned.  (An entry with the metadata prefix never does.) *)
Theorem getDirectoryTree_unreadable_entry_aborts (git : result (list remote))
    (es : list dirent) (prefix name : jsstring) (c : node) :
  alist_get name es = Some c ->
  startsWith name GIT_PREFIX = false ->
  unrenderable c ->
  exists err, getDirectoryTree (Dir git es) prefix = Throw err.
Proof.
  intros Hget Hvis Hbad. rewrite getDirectoryTree_Dir.
  eapply tree_loop_aborts; [exact Hget|exact Hvis|exact Hbad|].
  apply sort_In. apply alist_get_In in Hget.
  apply in_map_iff. exists (name, c). auto.
Qed.

Lemma getDirectoryTree_unreadable_entry_aborts_witness :
  exists err, getDirectoryTree broken_tree [] = Throw err.
Proof.
  unfold broken_tree.
  eapply (@getDirectoryTree_unreadable_entry_aborts _ _ [] (lit "docs")).
  - vm_compute. reflexivity.
  - vm_compute. reflexivity.
  - unfold unrenderable. cbn [stat_isDirectory]. intros prefix.
    eapply (@getDirectoryTree_unreadable_entry_aborts _ _ prefix (lit "latest")).
    + vm_compute. reflexivity.
    + vm_compute. reflexivity.
    + exact I.
Defined.

(** X17: a directory all of whose listed descendants can be examined and
    listed is rendered, one line per listed entry, whatever the state of
    the entries with the metadata prefix. *)
Theorem getDirectoryTree_succeeds_when_readable (git : result (list remote))
    (es : list dirent) (prefix : jsstring) :
  readable (Dir git es) = true ->
  exists out rows,
    getDirectoryTree (Dir git es) prefix = Ok out /\
    out = concat (map (row_text prefix) rows) /\
    map row_path rows = listed (Dir git es).
Proof.
  intros Hread.
  destruct (getDirectoryTree_total (Dir git es) Hread I prefix) as [out Hout].
  destruct (getDirectoryTree_renders (Dir git es) prefix Hout) as (rows & Htext & Hpaths & _).
  exists out, rows. auto.
Qed.

Lemma getDirectoryTree_succeeds_when_readable_witness :
  exists out rows,
    getDirectoryTree sample_tree (lit "  ") = Ok out /\
    out = concat (map (row_text (lit "  ")) rows) /\
    map row_path rows = listed sample_tree.
Proof.
  unfold sample_tree. apply getDirectoryTree_succeeds_when_readable.
  vm_compute. reflexivity.
Defined.

Lemma tree_loop_app child prefix len (l1 l2 : list jsstring) :
  forall i output,
    tree_loop child prefix len i (l1 ++ l2) output =
    match tree_loop child prefix len i l1 output with
    | Ok out1 => tree_loop child prefix len (i + length l1) l2 out1
    | Throw err => Throw err
    end.
Proof.
  induction l1 as [|entry l1 IH]; intros i output.
  - simpl. now rewrite Nat.add_0_r.
  - cbn [app tree_loop length].
    replace (i + S (length l1)) with (S i + length l1) by lia.
    destruct (startsWith entry GIT_PREFIX); [apply IH|].
    destruct (child entry) as [[[[]|] recurse]|]; auto.
    destruct (recurse _); auto.
Qed.

Lemma tree_loop_one (es : list dirent) (prefix : jsstring) (len i : nat)
    (entry : jsstring) (output : jsstring) :
  startsWith entry GIT_PREFIX = false ->
  tree_loop (child_of es) prefix len i [entry] output =
  match entry_text es prefix (Nat.eqb i (len - 1)) entry with
  | Ok t => Ok (output ++ t)
  | Throw err => Throw err
  end.
Proof.
  intros Hvis. cbn [tree_loop]. rewrite Hvis. unfold child_of, entry_text.
  destruct (alist_get entry es) as [c|]; [|reflexivity].
  unfold connector_of, indent_of.
  destruct (stat_isDirectory c) as [[|]|err]; [| |reflexivity].
  - destruct (getDirectoryTree c _); [|reflexivity].
    now rewrite <- !app_assoc.
  - reflexivity.
Qed.

Lemma tree_loop_front (es : list dirent) (prefix : jsstring) (len : nat) :
  forall front i output out,
    i + length front <= len - 1 ->
    tree_loop (child_of es) prefix len i front output = Ok out ->
    exists texts,
      Forall2 (fun name t => entry_text es prefix false name = Ok t)
              (filter visible front) texts /\
      out = output ++ concat texts.
Proof.
  induction front as [|entry front IH]; intros i output out Hi.
  - simpl. intros [= <-]. exists []. split; [constructor|]. simpl. now rewrite app_nil_r.
  - change (entry :: front) with ([entry] ++ front). rewrite tree_loop_app.
    simpl length in *.
    destruct (startsWith entry GIT_PREFIX) eqn:Hskip.
    + cbn [tree_loop]. rewrite Hskip. cbn [app filter].
      rewrite (visible_false _ Hskip). apply IH. lia.
    + rewrite tree_loop_one by exact Hskip.
      assert (Hnot : Nat.eqb i (len - 1) = false) by (apply Nat.eqb_neq; lia).
      rewrite Hnot.
      destruct (entry_text es prefix false entry) as [t|err] eqn:Ht; [|discriminate].
      intros Hloop. apply IH in Hloop; [|lia].
      destruct Hloop as (texts & Hall & ->).
      exists (t :: texts). cbn [app filter]. rewrite (visible_true _ Hskip).
      split; [now constructor|]. simpl. now rewrite <- app_assoc.
Qed.

(** X18: in a directory whose greatest name is listed, the rendering is
    the conventional tree: every other listed entry has the mid-branch
    connector and the pass-through indentation below it, the greatest
    one the terminal connector and a blank indentation. *)
Theorem getDirectoryTree_conventional (git : result (list remote))
    (es : list dirent) (prefix out : jsstring) (front : list jsstring)
    (final : jsstring) :
  sort (map fst es) = front ++ [final] ->
  startsWith final GIT_PREFIX = false ->
  getDirectoryTree (Dir git es) prefix = Ok out ->
  exists texts t,
    Forall2 (fun name text => entry_text es prefix false name = Ok text)
            (filter visible front) texts /\
    entry_text es prefix true final = Ok t /\
    out = concat texts ++ t.
Proof.
  intros Hsort Hvis. rewrite getDirectoryTree_Dir, Hsort, tree_loop_app.
  rewrite length_app. simpl length.
  destruct (tree_loop (child_of es) prefix (length front + 1) 0 front [])
    as [out1|err] eqn:Hfront; [|discriminate].
  apply tree_loop_front in Hfront; [|lia].
  destruct Hfront as (texts & Hall & ->).
  rewrite tree_loop_one by exact Hvis.
  replace (Nat.eqb (0 + length front) (length front + 1 - 1)) with true
    by (symmetry; apply Nat.eqb_eq; lia).
  destruct (entry_text es prefix true final) as [t|err]; [|discriminate].
  intros [= <-]. exists texts, t. auto.
Qed.

Lemma getDirectoryTree_conventional_witness :
  exists texts t,
    Forall2 (fun name text =>
               entry_text [(lit "src", Dir (Ok []) [(lit "a.js", File (Ok []))]);
                           (lit ".git", Sealed ENOENT);
                           (lit "LICENSE", File (Ok []))] [] false name = Ok text)
            [lit "LICENSE"] texts /\
    entry_text [(lit "src", Dir (Ok []) [(lit "a.js", File (Ok []))]);
                (lit ".git", Sealed ENOENT);
                (lit "LICENSE", File (Ok []))] [] true (lit "src") = Ok t /\
    MID_BRANCH ++ lit "LICENSE" ++ NEWLINE ++
    LAST_BRANCH ++ lit "src" ++ NEWLINE ++
    BLANK_INDENT ++ LAST_BRANCH ++ lit "a.js" ++ NEWLINE = concat texts ++ t.
Proof.
  apply (@getDirectoryTree_conventional (Ok [])
           [(lit "src", Dir (Ok []) [(lit "a.js", File (Ok []))]);
            (lit ".git", Sealed ENOENT);
            (lit "LICENSE", File (Ok []))]
           [] _ [lit ".git"; lit "LICENSE"] (lit "src"));
    vm_compute; reflexivity.
Defined.

(** ** Witnesses and a last property of the reader *)

Lemma handlers_always_resolve_witness :
  exists resp w1 log,
    handleGitDirectoryStructure unreachable_env sample_url empty_world =
      (Ok resp, w1, log) /\
    exists message, text resp = lit "Error: " ++ message.
Proof.
  destruct (handlers_always_resolve unreachable_env sample_url [] empty_world)
    as [(resp & w1 & log & Hrun & Herr) _].
  exists resp, w1, log. split; [exact Hrun|]. apply Herr.
  assert (Hc : fst (fst (handleGitDirectoryStructure unreachable_env sample_url
                           empty_world)) =
               Ok (mkResponse
                     (lit "Error: Failed to clone repository: fatal: unable to access the remote")
                     true))
    by (vm_compute; reflexivity).
  rewrite Hrun in Hc. simpl in Hc. injection Hc as ->. reflexivity.
Defined.

Lemma readAll_keys_witness :
  In (lit "a.txt")
     (keys (readAll sample_world sample_dir [lit "a.txt"; lit "__proto__"; lit "a.txt"])) /\
  In (lit "a.txt") [lit "a.txt"; lit "__proto__"; lit "a.txt"] /\
  lit "a.txt" <> PROTO.
Proof.
  assert (Hin : In (lit "a.txt")
                   (keys (readAll sample_world sample_dir
                            [lit "a.txt"; lit "__proto__"; lit "a.txt"])))
    by (vm_compute; auto).
  split; [exact Hin|].
  destruct (readAll_keys sample_world sample_dir
              [lit "a.txt"; lit "__proto__"; lit "a.txt"]) as [_ Hkeys].
  exact (Hkeys _ Hin).
Defined.

Lemma tempDir_shared_iff_hash_witness :
  tempDir sample_env sample_url <> tempDir sample_env (lit "https://example.org/x.git").
Proof.
  intros Hsame.
  apply (proj1 (tempDir_shared_iff_hash sample_env sample_url
                  (lit "https://example.org/x.git"))) in Hsame.
  vm_compute in Hsame. discriminate.
Defined.

Lemma define_own_same (o : object) (k v : jsstring) :
  obj_get o k = Some v -> define_own k v o = o.
Proof.
  induction o as [|[k' v'] tl IH]; simpl; [discriminate|].
  destruct (jsstring_eqb k' k) eqn:E.
  - now intros [= ->].
  - intros H. now rewrite IH.
Qed.

Lemma fold_left_snoc (A B : Type) (f : A -> B -> A) (l : list B) (x : B) (a : A) :
  fold_left f (l ++ [x]) a = f (fold_left f l a) x.
Proof. now rewrite fold_left_app. Qed.

(** X12: requesting again a path that was already requested changes
    nothing in the result. *)
Theorem readAll_repeated_request (w : node) (repoPath : jsstring)
    (file_paths : list jsstring) (p : jsstring) :
  In p file_paths ->
  readAll w repoPath (file_paths ++ [p]) = readAll w repoPath file_paths.
Proof.
  intros Hin. unfold readAll. rewrite fold_left_snoc, read_one_eq.
  unfold obj_set. destruct (jsstring_eqb p PROTO) eqn:E; [reflexivity|].
  apply jsstring_eqb_neq in E. apply define_own_same.
  now apply read_loop_requested.
Qed.

Lemma readAll_repeated_request_witness :
  readAll sample_world sample_dir ([lit "a.txt"; lit "missing.txt"] ++ [lit "a.txt"]) =
  readAll sample_world sample_dir [lit "a.txt"; lit "missing.txt"].
Proof.
  apply readAll_repeated_request. vm_compute. auto.
Defined.

